(** * TRBBFI: a shallow embedding of the Brainfuck engine of [src/trbbfi.cpp]

    The development follows class [BrainfuckInterpreter]: the filtered
    program ([loadCode]), the bracket pre-pass ([validateBrackets]),
    [reset], the dispatch loop of [execute] and [dumpMemory]; and, of class
    [Shell], [tokenize], the head of the command loop of [run] and the text
    that the [code] command assembles.

    Modelling choices.
    - A tape cell is an [unsigned char]: a [Z] in [0, 256) whose
      increment and decrement are written with their wrap-around.
    - [memory] is a [std::vector<unsigned char>]: a [list Z] read with
      stdpp's lookup and written with stdpp's insert.  Reading or writing
      [memory[memptr]] outside the vector is undefined behaviour in C++;
      the model makes it the explicit result [Undef]/[Undefined], and the
      safety theorems show that [execute] never gets there.
    - [memptr], [codeptr] and the entries of [loop_stack] are [size_t]
      indices, modelled as [nat].  They are bounded by the sizes of the two
      vectors (see [inv_memptr] and [inv_codeptr] below), so the 64-bit
      wrap-around of [size_t] is out of reach.
    - The [int] counters called [balance] are [Z] in [validateBrackets]
      and in the forward scan of [[]; their absolute value is bounded by
      the number of instructions (lemma [balance_bounds]), so they are the
      counters of the source on every program of fewer than [2^31]
      instructions.  The pre-pass is given a second time with its counter
      as the 32-bit [int] of the source, where leaving the range of the
      type is undefined ([validateBrackets_int]).  The two agree wherever
      the second is defined (lemma [validate_int_agrees]), so a program
      that the source accepts is a program that [validateBrackets]
      accepts; what is said of the pre-pass itself is said of
      [validateBrackets_int].
    - [std::cin] is the list of bytes still to be read and [std::cout] the
      list of bytes written by [.]; the texts of the error messages are
      represented by the [FailReason] of the result.  The trace that
      [debug_mode] sends to [std::cerr] is not modelled. *)

From Stdlib Require Import ZArith NArith Lia Ascii String DecimalString.
From stdpp Require Import base list strings.

Local Open Scope nat_scope.

(** ** Data model *)

Inductive FailReason : Type :=
| UnmatchedBrackets
| UnmatchedOpenBracket (pos : nat)
| UnmatchedCloseBracket (pos : nat)
| MemoryLimitExceeded.

(** The fields of the class, and the two standard streams that [execute]
    reads and writes. *)
Record BrainfuckInterpreter : Type := mkInterp {
  memory : list Z;
  code : list ascii;
  memptr : nat;
  codeptr : nat;
  loop_stack : list nat;   (* top of the std::stack = head of the list *)
  debug_mode : bool;
  cin : list Z;
  cout : list Z;
}.

Definition set_memory (m : list Z) (s : BrainfuckInterpreter) : BrainfuckInterpreter :=
  mkInterp m (code s) (memptr s) (codeptr s) (loop_stack s) (debug_mode s) (cin s) (cout s).
Definition set_code (c : list ascii) (s : BrainfuckInterpreter) : BrainfuckInterpreter :=
  mkInterp (memory s) c (memptr s) (codeptr s) (loop_stack s) (debug_mode s) (cin s) (cout s).
Definition set_memptr (p : nat) (s : BrainfuckInterpreter) : BrainfuckInterpreter :=
  mkInterp (memory s) (code s) p (codeptr s) (loop_stack s) (debug_mode s) (cin s) (cout s).
Definition set_codeptr (p : nat) (s : BrainfuckInterpreter) : BrainfuckInterpreter :=
  mkInterp (memory s) (code s) (memptr s) p (loop_stack s) (debug_mode s) (cin s) (cout s).
Definition set_loop_stack (k : list nat) (s : BrainfuckInterpreter) : BrainfuckInterpreter :=
  mkInterp (memory s) (code s) (memptr s) (codeptr s) k (debug_mode s) (cin s) (cout s).
Definition set_cin (i : list Z) (s : BrainfuckInterpreter) : BrainfuckInterpreter :=
  mkInterp (memory s) (code s) (memptr s) (codeptr s) (loop_stack s) (debug_mode s) i (cout s).
Definition set_cout (o : list Z) (s : BrainfuckInterpreter) : BrainfuckInterpreter :=
  mkInterp (memory s) (code s) (memptr s) (codeptr s) (loop_stack s) (debug_mode s) (cin s) o.

(** The two sizes of the source, [memory(30000, 0)] and [1000000]. *)
Definition INITIAL_CELLS : nat := Z.to_nat 30000.
Definition MEMORY_LIMIT : nat := Z.to_nat 1000000.

Arguments INITIAL_CELLS : simpl never.
Arguments MEMORY_LIMIT : simpl never.

(** The constructor: [memory(30000, 0), memptr(0), codeptr(0),
    debug_mode(false)], empty [code] and [loop_stack]. *)
Definition new_interp (input : list Z) : BrainfuckInterpreter :=
  mkInterp (replicate INITIAL_CELLS 0%Z) [] 0 0 [] false input [].

(** ** loadCode *)

Definition is_instruction (c : ascii) : bool :=
  Ascii.eqb c ">" || Ascii.eqb c "<" || Ascii.eqb c "+" || Ascii.eqb c "-" ||
  Ascii.eqb c "." || Ascii.eqb c "," || Ascii.eqb c "[" || Ascii.eqb c "]".

Fixpoint filter_code (program : list ascii) : list ascii :=
  match program with
  | [] => []
  | c :: rest =>
      if is_instruction c then c :: filter_code rest else filter_code rest
  end.

Definition loadCode (program : string) (s : BrainfuckInterpreter) : BrainfuckInterpreter :=
  set_code (filter_code (list_ascii_of_string program)) s.

(** ** validateBrackets *)

(** One turn of the two bracket tests shared by the pre-pass and by the
    forward scan of [[]: [if (c == '[') balance++; if (c == ']') balance--;]. *)
Definition bump (c : ascii) (balance : Z) : Z :=
  let b1 := if Ascii.eqb c "[" then (balance + 1)%Z else balance in
  if Ascii.eqb c "]" then (b1 - 1)%Z else b1.

(** The loop of the pre-pass with its counter in [Z]: the loop of the source
    as long as the counter stays in the range of an [int], which it does on
    every program that the source accepts.  [validate_int_loop] is the same
    loop with the counter in its type. *)
Fixpoint validate_loop (balance : Z) (cs : list ascii) : bool :=
  match cs with
  | [] => (balance =? 0)%Z
  | c :: rest =>
      let b := bump c balance in
      if (b <? 0)%Z then false else validate_loop b rest
  end.

Definition validateBrackets (s : BrainfuckInterpreter) : bool := validate_loop 0 (code s).

(** ** reset *)

Definition reset (s : BrainfuckInterpreter) : BrainfuckInterpreter :=
  set_loop_stack [] (set_codeptr 0 (set_memptr 0
    (set_memory (replicate (length (memory s)) 0%Z) s))).

(** ** execute *)

(** The statements at the head of [execute] after the pre-pass; the same
    four assignments as [reset], in the order of the source. *)
Definition prepare (s : BrainfuckInterpreter) : BrainfuckInterpreter :=
  set_memory (replicate (length (memory s)) 0%Z)
    (set_loop_stack [] (set_memptr 0 (set_codeptr 0 s))).

(** [std::cin.get()] followed by [std::cin.fail()]: the value returned, the
    fail bit, and the rest of the stream. *)
Definition EOF : Z := (-1)%Z.

Definition cin_get (input : list Z) : Z * bool * list Z :=
  match input with
  | [] => (EOF, true, [])
  | b :: rest => (b, false, rest)
  end.

(** The value that [,] stores: the two branches of the source, with
    [(unsigned char)input] written as a reduction modulo 256. *)
Definition store_input (input : Z) (failed : bool) : Z :=
  if failed then 0%Z
  else if (input =? EOF)%Z then 0%Z else (input mod 256)%Z.

(** The forward scan of [[] on a zero cell.  [rest] is the part of [code]
    from index [pos] on, so [pos < code.size()] is [rest] being nonempty. *)
Fixpoint scan_loop (rest : list ascii) (pos : nat) (balance : Z) : nat * Z :=
  match rest with
  | [] => (pos, balance)
  | c :: rest' =>
      if (0 <? balance)%Z then scan_loop rest' (S pos) (bump c balance)
      else (pos, balance)
  end.

Inductive step_result : Type :=
| Next (s : BrainfuckInterpreter)                       (* [break]: go on to [codeptr++] *)
| Abort (r : FailReason) (s : BrainfuckInterpreter)     (* [return false] *)
| Undef.                                  (* an access outside [memory] *)

(** The body of one [case] of the [switch]. *)
Definition exec_instr (c : ascii) (s : BrainfuckInterpreter) : step_result :=
  if Ascii.eqb c ">" then
    let s1 := set_memptr (S (memptr s)) s in
    if length (memory s1) <=? memptr s1 then
      if MEMORY_LIMIT <=? length (memory s1) then Abort MemoryLimitExceeded s1
      else Next (set_memory
                   (resize (Nat.min (length (memory s1) * 2) MEMORY_LIMIT) 0%Z (memory s1))
                   s1)
    else Next s1
  else if Ascii.eqb c "<" then
    if 0 <? memptr s then Next (set_memptr (memptr s - 1) s) else Next s
  else if Ascii.eqb c "+" then
    match memory s !! memptr s with
    | Some v => Next (set_memory (<[memptr s := ((v + 1) mod 256)%Z]> (memory s)) s)
    | None => Undef
    end
  else if Ascii.eqb c "-" then
    match memory s !! memptr s with
    | Some v => Next (set_memory (<[memptr s := ((v - 1) mod 256)%Z]> (memory s)) s)
    | None => Undef
    end
  else if Ascii.eqb c "." then
    match memory s !! memptr s with
    | Some v => Next (set_cout (cout s ++ [v]) s)
    | None => Undef
    end
  else if Ascii.eqb c "," then
    let '(input, failed, rest) := cin_get (cin s) in
    match memory s !! memptr s with
    | Some _ =>
        Next (set_memory (<[memptr s := store_input input failed]> (memory s))
                (set_cin rest s))
    | None => Undef
    end
  else if Ascii.eqb c "[" then
    match memory s !! memptr s with
    | Some v =>
        if (v =? 0)%Z then
          let '(pos, balance) :=
            scan_loop (drop (S (codeptr s)) (code s)) (S (codeptr s)) 1 in
          if (0 <? balance)%Z then Abort (UnmatchedOpenBracket (codeptr s)) s
          else Next (set_codeptr (pos - 1) s)
        else Next (set_loop_stack (codeptr s :: loop_stack s) s)
    | None => Undef
    end
  else if Ascii.eqb c "]" then
    match loop_stack s with
    | [] => Abort (UnmatchedCloseBracket (codeptr s)) s
    | top :: below =>
        match memory s !! memptr s with
        | Some v =>
            if (v =? 0)%Z then Next (set_loop_stack below s)
            else Next (set_codeptr top s)
        | None => Undef
        end
    end
  else Next s.

(** One turn of [while (codeptr < code.size())]: the [switch] on
    [code[codeptr]], then [codeptr++]. *)
Definition step (s : BrainfuckInterpreter) : step_result :=
  match code s !! codeptr s with
  | Some c =>
      match exec_instr c s with
      | Next s' => Next (set_codeptr (S (codeptr s')) s')
      | r => r
      end
  | None => Undef
  end.

Inductive run_result : Type :=
| Completed (s : BrainfuckInterpreter)                  (* [return true] *)
| Failed (r : FailReason) (s : BrainfuckInterpreter)    (* [return false] *)
| Undefined.

(** The dispatch loop, with [fuel] bounding the number of turns; [None]
    means that the fuel ran out while the loop was still going. *)
Fixpoint run (fuel : nat) (s : BrainfuckInterpreter) : option run_result :=
  if codeptr s <? length (code s) then
    match fuel with
    | O => None
    | S fuel' =>
        match step s with
        | Next s' => run fuel' s'
        | Abort r s' => Some (Failed r s')
        | Undef => Some Undefined
        end
    end
  else Some (Completed s).

Definition execute (fuel : nat) (s : BrainfuckInterpreter) : option run_result :=
  if negb (validateBrackets s) then Some (Failed UnmatchedBrackets s)
  else run fuel (prepare s).

(** The states that the dispatch loop goes through, starting from [s]. *)
Inductive reaches (s : BrainfuckInterpreter) : BrainfuckInterpreter -> Prop :=
| reaches_here : reaches s s
| reaches_next s1 s2 :
    reaches s s1 -> codeptr s1 < length (code s1) -> step s1 = Next s2 ->
    reaches s s2.

(** ** Specification-level notions *)

(** The bracket balance in the words of the specification: [+1] per [[],
    [-1] per []]. *)
Definition weight (c : ascii) : Z :=
  if Ascii.eqb c "[" then 1%Z else if Ascii.eqb c "]" then (-1)%Z else 0%Z.

Fixpoint balance (cs : list ascii) : Z :=
  match cs with
  | [] => 0%Z
  | c :: rest => (weight c + balance rest)%Z
  end.

(** The running balance never goes negative on a prefix and ends at zero. *)
Definition balanced (cs : list ascii) : Prop :=
  (forall k, (0 <= balance (take k cs))%Z) /\ balance cs = 0%Z.

(** The positions of the [[] that are still open after the first [p]
    instructions, innermost first. *)
Fixpoint opens (cs : list ascii) (p : nat) : list nat :=
  match p with
  | O => []
  | S q =>
      match cs !! q with
      | Some c =>
          if Ascii.eqb c "[" then q :: opens cs q
          else if Ascii.eqb c "]" then tail (opens cs q)
          else opens cs q
      | None => opens cs q
      end
  end.

(** [q] is the [[] that matches the []] at [p]: the forward scan that [[]
    starts at [q + 1] stops just after [p], with its balance at zero. *)
Definition matching (cs : list ascii) (q p : nat) : Prop :=
  q < p /\ cs !! q = Some "["%char /\ cs !! p = Some "]"%char /\
  scan_loop (drop (S q) cs) (S q) 1 = (S p, 0%Z).

Definition cell_ok (v : Z) : Prop := (0 <= v < 256)%Z.

(** What holds of every state of the dispatch loop of an [execute] call. *)
Record Inv (s0 s : BrainfuckInterpreter) : Prop := mkInv {
  inv_code : code s = code s0;
  inv_valid : validate_loop 0 (code s) = true;
  inv_codeptr : codeptr s <= length (code s);
  inv_memptr : memptr s < length (memory s);
  inv_stack : loop_stack s = opens (code s) (codeptr s);
  inv_cells : Forall cell_ok (memory s);
  inv_grow : length (memory s0) <= length (memory s);
}.

(** ** Proof automation *)

(** Reads the fields of a state built with the setters. *)
Ltac simpl_state :=
  cbn [memory code memptr codeptr loop_stack debug_mode cin cout
       set_memory set_code set_memptr set_codeptr set_loop_stack set_cin set_cout
       loadCode prepare] in *.

(** Closes the routine fields of [Inv] after a turn; [E] is the equation
    that moves [opens] over the instruction just executed. *)
Ltac close_inv E :=
  simpl_state; rewrite ?length_resize, ?length_insert;
  try done; try lia; try (by rewrite E).

(** ** Running a fixed number of turns *)

(** The state after one turn, and after [n] turns, of the dispatch loop;
    [going n s] tells that the loop does make [n] turns from [s]. *)
Definition turn (s : BrainfuckInterpreter) : BrainfuckInterpreter :=
  match step s with
  | Next s' => s'
  | _ => s
  end.

Fixpoint after (n : nat) (s : BrainfuckInterpreter) : BrainfuckInterpreter :=
  match n with
  | O => s
  | S k => after k (turn s)
  end.

Fixpoint going (n : nat) (s : BrainfuckInterpreter) : bool :=
  match n with
  | O => true
  | S k =>
      (codeptr s <? length (code s)) &&
      match step s with
      | Next s' => going k s'
      | _ => false
      end
  end.

(** Every field but the program and the instruction pointer: what two
    runs of different programs can be compared on. *)
Definition machine_state (s : BrainfuckInterpreter) : BrainfuckInterpreter := set_code [] (set_codeptr 0 s).

(** Engines used as examples. *)
Definition dirty_engine (program : string) : BrainfuckInterpreter :=
  set_memptr 5 (set_memory (replicate INITIAL_CELLS 7%Z) (loadCode program (new_interp []))).

Definition one_cell_at (v : Z) (program : string) : BrainfuckInterpreter :=
  set_memory (<[0 := v]> (replicate INITIAL_CELLS 0%Z)) (loadCode program (new_interp [])).

Definition echo_engine (input : list Z) : BrainfuckInterpreter :=
  set_memory (<[0 := 9%Z]> (replicate INITIAL_CELLS 0%Z)) (loadCode "," (new_interp input)).

Definition at_last_cell : BrainfuckInterpreter :=
  set_memptr (INITIAL_CELLS - 1) (loadCode ">" (new_interp [])).

(** The filtered text of the program [+[>+]]: a loop that walks to the
    right, leaving a 1 in every cell, for as long as there is tape. *)
Definition runaway_code : list ascii := ["+"; "["; ">"; "+"; "]"]%char.

(** ** dumpMemory *)

(** Text is a list of characters.  [start], [count] and [end] are [size_t]
    values that come from the user, so here the arithmetic modulo [2^64] is
    written out.  [dumpMemory] returns the text it sends to [std::cout];
    [None] stands for a read outside [memory]. *)
Definition SIZE_MODULUS : N := 18446744073709551616%N.

Definition text (s : string) : list ascii := list_ascii_of_string s.

Definition newline : list ascii := ["010"%char].

(** [operator<<] on an unsigned integer: decimal digits, no padding. *)
Definition show_N (n : N) : list ascii :=
  text (NilEmpty.string_of_uint (N.to_uint n)).

(** One turn of the [for] loop: the cell, in brackets when it is the
    current one. *)
Definition show_cell (s : BrainfuckInterpreter) (i : nat) (v : Z) : list ascii :=
  if i =? memptr s then text "[" ++ show_N (Z.to_N v) ++ text "] "
  else show_N (Z.to_N v) ++ text " ".

(** [for (size_t i = start; i < end; i++)], with [turns] the number of
    indices from [i] up to [end]. *)
Fixpoint dump_loop (s : BrainfuckInterpreter) (turns i : nat) : option (list ascii) :=
  match turns with
  | O => Some []
  | S turns' =>
      match memory s !! i with
      | Some v =>
          match dump_loop s turns' (S i) with
          | Some rest => Some (show_cell s i v ++ rest)
          | None => None
          end
      | None => None
      end
  end.

Definition dump_end (start count : N) (s : BrainfuckInterpreter) : N :=
  N.min ((start + count) mod SIZE_MODULUS) (N.of_nat (length (memory s))).

Definition dumpMemory (start count : N) (s : BrainfuckInterpreter) : option (list ascii) :=
  let size := N.of_nat (length (memory s)) in
  if (size <=? start)%N then
    Some (text "Error: Start position " ++ show_N start
          ++ text " exceeds memory size " ++ show_N size ++ newline)
  else
    let e := dump_end start count s in
    match dump_loop s (N.to_nat e - N.to_nat start) (N.to_nat start) with
    | Some cells =>
        Some (text "Memory [" ++ show_N start ++ text "-"
              ++ show_N ((e + SIZE_MODULUS - 1) mod SIZE_MODULUS) ++ text "]: "
              ++ cells ++ newline)
    | None => None
    end.

(** The cells of the window [[start, start + n)] with their indices, as a
    list: what the listing is compared with. *)
Definition window (s : BrainfuckInterpreter) (start n : nat) : list (nat * Z) :=
  zip (seq start n) (take n (drop start (memory s))).

Definition render_window (s : BrainfuckInterpreter) (w : list (nat * Z)) : list ascii :=
  concat (map (fun iv => show_cell s (fst iv) (snd iv)) w).

(** ** Shell: reading a command *)

(** [std::isspace] in the classic locale: space and the characters 9 to 13. *)
Definition isspace (c : ascii) : bool :=
  let n := N_of_ascii c in
  (n =? 32)%N || ((9 <=? n)%N && (n <=? 13)%N).

Fixpoint drop_while (p : ascii -> bool) (cs : list ascii) : list ascii :=
  match cs with
  | [] => []
  | c :: rest => if p c then drop_while p rest else cs
  end.

Fixpoint take_while (p : ascii -> bool) (cs : list ascii) : list ascii :=
  match cs with
  | [] => []
  | c :: rest => if p c then c :: take_while p rest else []
  end.

(** One [ss >> token]: skip the white space, then take the characters up
    to the next white space; the extraction fails when none is left. *)
Definition extract (ss : list ascii) : option (list ascii * list ascii) :=
  match drop_while isspace ss with
  | [] => None
  | c :: rest =>
      Some (take_while (fun x => negb (isspace x)) (c :: rest),
            drop_while (fun x => negb (isspace x)) (c :: rest))
  end.

(** [while (ss >> token) tokens.push_back(token);].  Every extraction
    takes at least one character, so one more turn than the line has
    characters is enough. *)
Fixpoint tokenize_loop (fuel : nat) (ss : list ascii) : list (list ascii) :=
  match fuel with
  | O => []
  | S fuel' =>
      match extract ss with
      | Some (token, rest) => token :: tokenize_loop fuel' rest
      | None => []
      end
  end.

Definition tokenize (line : list ascii) : list (list ascii) :=
  tokenize_loop (S (length line)) line.

(** The characters of [" \t"]. *)
Definition is_blank (c : ascii) : bool := Ascii.eqb c " " || Ascii.eqb c "009".

(** [line.erase(0, line.find_first_not_of(" \t"));
    line.erase(line.find_last_not_of(" \t") + 1);] *)
Definition trim (line : list ascii) : list ascii :=
  rev (drop_while is_blank (rev (drop_while is_blank line))).

Fixpoint text_eqb (a b : list ascii) : bool :=
  match a, b with
  | [], [] => true
  | x :: a', y :: b' => Ascii.eqb x y && text_eqb a' b'
  | _, _ => false
  end.

(** What the head of the loop body of [Shell::run] makes of a line, once
    [std::getline] has read it: [continue], [break], or the tokens that go
    to the command dispatch. *)
Inductive loop_action : Type :=
| Continue
| Break
| Dispatch (tokens : list (list ascii)).

Definition read_command (line : list ascii) : loop_action :=
  let line := trim line in
  match line with
  | [] => Continue
  | _ =>
      if text_eqb line (text "exit") || text_eqb line (text "quit")
         || text_eqb line (text "q")
      then Break
      else match tokenize line with
           | [] => Continue
           | tokens => Dispatch tokens
           end
  end.

(** The program text that the [code] command puts together from
    [tokens[1]] onwards, one space between two tokens. *)
Fixpoint join_tokens (tokens : list (list ascii)) : list ascii :=
  match tokens with
  | [] => []
  | [t] => t
  | t :: rest => t ++ " "%char :: join_tokens rest
  end.

Definition code_argument (tokens : list (list ascii)) : list ascii :=
  join_tokens (tail tokens).

(** ** More programs used as examples *)

(** The filtered text of [,[.,]], which copies its input to its output. *)
Definition cat_code : list ascii := [","; "["; "."; ","; "]"]%char.

Definition is_bracket (c : ascii) : bool := Ascii.eqb c "[" || Ascii.eqb c "]".

(** What every result of [execute] is compared on: the state it carries,
    if any. *)
Definition result_state (r : run_result) : option BrainfuckInterpreter :=
  match r with
  | Completed s => Some s
  | Failed _ s => Some s
  | Undefined => None
  end.

(** ** validateBrackets with the counter as an [int] *)

(** The range of a 32-bit [int]. *)
Definition INT_MAX : Z := 2147483647%Z.
Definition INT_MIN : Z := (-2147483648)%Z.

(** [balance++] and [balance--] on an [int]: a result outside the range of
    the type is undefined behaviour, [None]. *)
Definition int_add (a d : Z) : option Z :=
  let r := (a + d)%Z in
  if (INT_MIN <=? r)%Z && (r <=? INT_MAX)%Z then Some r else None.

(** [if (c == '[') balance++; if (c == ']') balance--;] on an [int]. *)
Definition bump_int (c : ascii) (balance : Z) : option Z :=
  match (if Ascii.eqb c "[" then int_add balance 1 else Some balance) with
  | Some b1 => if Ascii.eqb c "]" then int_add b1 (-1) else Some b1
  | None => None
  end.

Fixpoint validate_int_loop (balance : Z) (cs : list ascii) : option bool :=
  match cs with
  | [] => Some (balance =? 0)%Z
  | c :: rest =>
      match bump_int c balance with
      | Some b => if (b <? 0)%Z then Some false else validate_int_loop b rest
      | None => None
      end
  end.

Definition validateBrackets_int (s : BrainfuckInterpreter) : option bool :=
  validate_int_loop 0 (code s).

(** A program nested [2^31] deep: [2^31] times [[], then [2^31] times []]. *)
Definition DEEP : nat := Z.to_nat 2147483648.
Arguments DEEP : simpl never.

Definition deep_program : list ascii :=
  replicate DEEP "["%char ++ replicate DEEP "]"%char.

(** ** The matching bracket, by balance *)

(** The []] at [m] closes the [[] at [q]: counted from [q], the bracket
    balance ([+1] per [[], [-1] per []]) is back to 0 just after [m], and
    not before. *)
Definition closes_at (cs : list ascii) (q m : nat) : Prop :=
  q < m /\ cs !! q = Some "["%char /\ cs !! m = Some "]"%char /\
  balance (take (S m - q) (drop q cs)) = 0%Z /\
  forall j, q <= j < m -> (0 < balance (take (S j - q) (drop q cs)))%Z.

(** ** The two ways a cell is listed *)

Definition plain_cell (v : Z) : list ascii := show_N (Z.to_N v) ++ text " ".

Definition marked_cell (v : Z) : list ascii :=
  text "[" ++ show_N (Z.to_N v) ++ text "] ".

(** The header of a listing. *)
Definition dump_header (start count : N) (s : BrainfuckInterpreter) : list ascii :=
  text "Memory [" ++ show_N start ++ text "-"
  ++ show_N ((dump_end start count s + SIZE_MODULUS - 1) mod SIZE_MODULUS)
  ++ text "]: ".

(** Closes the conjuncts of a frame statement after a turn. *)
Ltac frame_done :=
  repeat split; auto; try lia; try (by intros ? [= <-]);
  try match goal with
      | H : Some _ = Some ?c, Hb : is_bracket ?c = false |- _ =>
          injection H as <-; discriminate Hb
      end.

(** ** Smoke tests *)

Example load_strips : code (loadCode "hi+ +[- ]" (new_interp [])) = code (loadCode "++[-]" (new_interp [])).
Proof. reflexivity. Qed.

Example run_echo :
  match execute 10 (loadCode ",." (new_interp [65%Z; 66%Z])) with
  | Some (Completed s) => cout s = [65%Z] /\ cin s = [66%Z]
  | _ => False
  end.
Proof. vm_compute. auto. Qed.

Example run_plus3 :
  match execute 10 (loadCode "+++." (new_interp [])) with
  | Some (Completed s) => cout s = [3%Z]
  | _ => False
  end.
Proof. vm_compute. auto. Qed.

Example run_clear_loop :
  match execute 100 (loadCode "+++[-]" (new_interp [])) with
  | Some (Completed s) => memory s !! 0 = Some 0%Z /\ loop_stack s = [] /\ codeptr s = 6
  | _ => False
  end.
Proof. vm_compute. auto. Qed.

Example run_skip_loop :
  match execute 100 (loadCode "[-]" (new_interp [])) with
  | Some (Completed s) => forallb (Z.eqb 0) (memory s) = true /\ codeptr s = 3
  | _ => False
  end.
Proof. vm_compute. auto. Qed.

(** ** The bracket pre-pass *)

Lemma bump_weight c b : bump c b = (b + weight c)%Z.
Proof.
  unfold bump, weight.
  destruct (Ascii.eqb_spec c "[") as [->|]; simpl; [lia|].
  destruct (Ascii.eqb c "]"); lia.
Qed.

Lemma balance_app cs1 cs2 : balance (cs1 ++ cs2) = (balance cs1 + balance cs2)%Z.
Proof. induction cs1 as [|c cs1 IH]; simpl; lia. Qed.

Lemma weight_bounds c : (-1 <= weight c <= 1)%Z.
Proof. unfold weight. destruct (Ascii.eqb c "["), (Ascii.eqb c "]"); lia. Qed.

(** The [int] counters stay within the number of instructions read. *)
Lemma balance_bounds cs : (- Z.of_nat (length cs) <= balance cs <= Z.of_nat (length cs))%Z.
Proof.
  induction cs as [|c cs IH]; simpl length; simpl balance; [lia|].
  pose proof (weight_bounds c). lia.
Qed.

Lemma validate_loop_spec cs : forall b, (0 <= b)%Z ->
  validate_loop b cs = true <->
  (forall k, (0 <= b + balance (take k cs))%Z) /\ (b + balance cs = 0)%Z.
Proof.
  induction cs as [|c cs IH]; intros b Hb; simpl.
  - rewrite Z.eqb_eq. split.
    + intros ->. split; [intros k; rewrite take_nil; simpl; lia | lia].
    + intros [_ H]. lia.
  - rewrite bump_weight. destruct (Z.ltb_spec (b + weight c) 0) as [Hneg|Hpos].
    + split; [discriminate|]. intros [H _]. specialize (H 1). simpl in H. lia.
    + rewrite (IH _ Hpos). split.
      * intros [H1 H2]. split; [|lia]. intros [|k]; simpl; [lia|].
        specialize (H1 k). lia.
      * intros [H1 H2]. split; [|lia]. intros k. specialize (H1 (S k)).
        simpl in H1. lia.
Qed.

Lemma validate_loop_false cs : forall b, (0 <= b)%Z ->
  validate_loop b cs = false ->
  (exists k, (b + balance (take k cs) < 0)%Z) \/ (b + balance cs <> 0)%Z.
Proof.
  induction cs as [|c cs IH]; intros b Hb; simpl.
  - rewrite Z.eqb_neq. intros H. right. lia.
  - rewrite bump_weight. destruct (Z.ltb_spec (b + weight c) 0) as [Hneg|Hpos].
    + intros _. left. exists 1. simpl. lia.
    + intros H. destruct (IH _ Hpos H) as [[k Hk]|Hz].
      * left. exists (S k). simpl. lia.
      * right. lia.
Qed.

(** With the counter in [Z], the pre-pass returns [true] exactly when the
    running bracket balance is never negative on a prefix of the program and
    is zero on the whole program, and [false] exactly when some prefix has
    a negative balance or the final balance is not zero. *)
Lemma validateBrackets_iff_balanced (s : BrainfuckInterpreter) :
  (validateBrackets s = true <-> balanced (code s)) /\
  (validateBrackets s = false <->
     (exists k, (balance (take k (code s)) < 0)%Z) \/ balance (code s) <> 0%Z).
Proof.
  assert (Hiff : validateBrackets s = true <-> balanced (code s)).
  { unfold validateBrackets, balanced. rewrite validate_loop_spec by lia.
    simpl. reflexivity. }
  split; [exact Hiff|]. split.
  - intros H. apply validate_loop_false in H; [|lia]. simpl in H. exact H.
  - intros H. apply not_true_iff_false. rewrite Hiff. unfold balanced.
    intros [H1 H2]. destruct H as [[k Hk]|Hz]; [specialize (H1 k); lia | done].
Qed.

(** ** The pre-pass with its [int] counter *)

Lemma int_add_some a d :
  (INT_MIN <= a + d <= INT_MAX)%Z -> int_add a d = Some (a + d)%Z.
Proof.
  intros H. unfold int_add. cbv zeta.
  destruct (Z.leb_spec INT_MIN (a + d)), (Z.leb_spec (a + d) INT_MAX); simpl; done || lia.
Qed.

Lemma int_add_none a d : (INT_MAX < a + d)%Z -> int_add a d = None.
Proof.
  intros H. unfold int_add. cbv zeta.
  destruct (Z.leb_spec (a + d) INT_MAX); [lia|]. by rewrite andb_false_r.
Qed.

Lemma bump_int_some c b :
  (0 <= b)%Z -> (b + weight c <= INT_MAX)%Z -> bump_int c b = Some (b + weight c)%Z.
Proof.
  unfold bump_int, weight, INT_MAX. intros H0 H1.
  destruct (Ascii.eqb_spec c "[") as [->|Hno].
  - rewrite int_add_some by (unfold INT_MIN, INT_MAX; lia). done.
  - destruct (Ascii.eqb_spec c "]") as [->|Hnc].
    + rewrite int_add_some by (unfold INT_MIN, INT_MAX; lia). done.
    + f_equal. lia.
Qed.

Lemma bump_int_none c b :
  (0 <= b <= INT_MAX)%Z -> (INT_MAX < b + weight c)%Z -> bump_int c b = None.
Proof.
  unfold bump_int, weight. intros H0 H1.
  destruct (Ascii.eqb_spec c "[") as [->|Hno].
  - by rewrite int_add_none.
  - destruct (Ascii.eqb c "]"); lia.
Qed.

(** Where the [int] pre-pass is defined, it returns what the pre-pass with
    its counter in [Z] returns. *)
Lemma validate_int_agrees cs : forall b r,
  (0 <= b <= INT_MAX)%Z -> validate_int_loop b cs = Some r -> validate_loop b cs = r.
Proof.
  induction cs as [|c cs IH]; intros b r Hb; simpl; [by intros [= <-]|].
  rewrite bump_weight.
  destruct (Z.le_gt_cases (b + weight c) INT_MAX) as [Hin|Hout].
  - rewrite (bump_int_some _ _ (proj1 Hb) Hin).
    destruct (Z.ltb_spec (b + weight c) 0); [by intros [= <-] | by apply IH].
  - by rewrite (bump_int_none _ _ Hb Hout).
Qed.

(** It is defined on every program of fewer than [2^31] instructions. *)
Lemma validate_int_defined cs : forall b,
  (0 <= b)%Z -> (b + Z.of_nat (length cs) <= INT_MAX)%Z ->
  validate_int_loop b cs = Some (validate_loop b cs).
Proof.
  induction cs as [|c cs IH]; intros b Hb Hlen; [done|].
  cbn [validate_int_loop validate_loop length] in *. rewrite bump_weight.
  pose proof (weight_bounds c).
  rewrite (bump_int_some _ _ Hb) by lia.
  destruct (Z.ltb_spec (b + weight c) 0); [done|]. apply IH; lia.
Qed.

(** What the [int] pre-pass accepts: the running balance stays between 0
    and [INT_MAX] and ends at 0. *)
Lemma validate_int_spec cs : forall b, (0 <= b <= INT_MAX)%Z ->
  validate_int_loop b cs = Some true <->
  (forall k, (0 <= b + balance (take k cs) <= INT_MAX)%Z) /\ (b + balance cs = 0)%Z.
Proof.
  induction cs as [|c cs IH]; intros b Hb; simpl.
  - split.
    + intros [= H]. apply Z.eqb_eq in H. split; [|lia].
      intros k. rewrite take_nil. simpl. lia.
    + intros [_ H]. f_equal. apply Z.eqb_eq. lia.
  - destruct (Z.le_gt_cases (b + weight c) INT_MAX) as [Hin|Hout].
    + rewrite (bump_int_some _ _ (proj1 Hb) Hin).
      destruct (Z.ltb_spec (b + weight c) 0) as [Hneg|Hpos].
      * split; [done|]. intros [H _]. specialize (H 1). simpl in H. lia.
      * rewrite (IH _ (conj Hpos Hin)). split.
        -- intros [H1 H2]. split; [|lia]. intros [|k]; simpl; [lia|].
           specialize (H1 k). lia.
        -- intros [H1 H2]. split; [|lia]. intros k. specialize (H1 (S k)).
           simpl in H1. lia.
    + rewrite (bump_int_none _ _ Hb Hout). split; [done|].
      intros [H _]. specialize (H 1). simpl in H. lia.
Qed.

(** A program that the source accepts is one that [validateBrackets]
    accepts: the theorems about [execute] apply to it. *)
Lemma validateBrackets_int_accepts s :
  validateBrackets_int s = Some true -> validateBrackets s = true.
Proof. apply validate_int_agrees. unfold INT_MAX. lia. Qed.

(** Below [2^31] instructions the pre-pass of the source is the balance
    test of the specification. *)
Lemma validateBrackets_int_iff_balanced s :
  (Z.of_nat (length (code s)) <= INT_MAX)%Z ->
  validateBrackets_int s = Some (validateBrackets s) /\
  (validateBrackets_int s = Some true <-> balanced (code s)).
Proof.
  intros Hlen. unfold validateBrackets_int.
  rewrite (validate_int_defined _ 0) by lia. split; [done|].
  destruct (validateBrackets_iff_balanced s) as [Hiff _]. fold (validateBrackets s).
  rewrite <- Hiff. split; [by intros [= ->] | by intros ->].
Qed.

Lemma balance_replicate c n : balance (replicate n c) = (weight c * Z.of_nat n)%Z.
Proof. induction n as [|n IH]; [simpl; lia|]. cbn [replicate balance]. lia. Qed.

(** Opening brackets past [INT_MAX] overflow the counter. *)
Lemma validate_int_overflows n rest : forall b,
  (0 <= b <= INT_MAX)%Z -> (INT_MAX < b + Z.of_nat n)%Z ->
  validate_int_loop b (replicate n "["%char ++ rest) = None.
Proof.
  induction n as [|n IH]; intros b Hb Hn; [lia|].
  cbn [replicate app validate_int_loop].
  destruct (Z.le_gt_cases (b + 1) INT_MAX) as [Hin|Hout].
  - rewrite (bump_int_some "[" b) by (change (weight "[") with 1%Z; lia).
    change (weight "[") with 1%Z.
    destruct (Z.ltb_spec (b + 1) 0); [lia|]. apply IH; lia.
  - by rewrite (bump_int_none "[" b) by (change (weight "[") with 1%Z; lia).
Qed.

Lemma filter_code_brackets n m :
  filter_code (replicate n "["%char ++ replicate m "]"%char)
  = replicate n "["%char ++ replicate m "]"%char.
Proof.
  induction n as [|n IH]; [|cbn [replicate app filter_code]; by rewrite IH].
  cbn [replicate app].
  induction m as [|m IH]; [done|]. cbn [replicate filter_code]. by rewrite IH.
Qed.

Lemma deep_program_loads s :
  code (loadCode (string_of_list_ascii deep_program) s) = deep_program.
Proof.
  cbn [loadCode set_code code]. rewrite list_ascii_of_string_of_list_ascii.
  apply filter_code_brackets.
Qed.

Lemma deep_program_balanced : balanced deep_program.
Proof.
  unfold balanced, deep_program. split.
  - intros k. rewrite take_app, !take_replicate, balance_app, !balance_replicate.
    rewrite length_replicate. change (weight "[") with 1%Z.
    change (weight "]") with (-1)%Z. lia.
  - rewrite balance_app, !balance_replicate. change (weight "[") with 1%Z.
    change (weight "]") with (-1)%Z. lia.
Qed.

(** With its counter in [Z] the pre-pass goes through [deep_program] and
    accepts it: the program is outside the range where [validateBrackets]
    stands for the source. *)
Lemma validateBrackets_in_Z_on_deep_program s :
  validateBrackets (set_code deep_program s) = true.
Proof.
  apply validateBrackets_iff_balanced. cbn [set_code code]. apply deep_program_balanced.
Qed.

(** C3.  The claim fails on the code at the program [deep_program], which
    [loadCode] installs as it is.  Its running balance is never negative
    and ends at 0, so the claim has [validateBrackets] return [true]; but
    the counter of the source is an [int], which the [2^31]-th [[] takes
    past [INT_MAX]: the pre-pass of the source has no defined result
    there, and neither [true] nor [false] is what the code returns. *)
Theorem validateBrackets_overflows_on_deep_program :
  let s := loadCode (string_of_list_ascii deep_program) (new_interp []) in
  code s = deep_program /\ balanced (code s) /\ validateBrackets_int s = None.
Proof.
  intros s. assert (Hcode : code s = deep_program) by apply deep_program_loads.
  split; [done|]. rewrite Hcode. split; [apply deep_program_balanced|].
  unfold validateBrackets_int. rewrite Hcode. unfold deep_program.
  apply validate_int_overflows; unfold INT_MAX, DEEP; lia.
Qed.

(** ** One turn of the dispatch loop *)

Lemma step_dispatch s c :
  code s !! codeptr s = Some c ->
  step s = match exec_instr c s with
           | Next s' => Next (set_codeptr (S (codeptr s')) s')
           | r => r
           end.
Proof. unfold step. intros ->. reflexivity. Qed.

Lemma exec_right s :
  exec_instr ">" s =
  if length (memory s) <=? S (memptr s) then
    if MEMORY_LIMIT <=? length (memory s)
    then Abort MemoryLimitExceeded (set_memptr (S (memptr s)) s)
    else Next (set_memory
                 (resize (Nat.min (length (memory s) * 2) MEMORY_LIMIT) 0%Z (memory s))
                 (set_memptr (S (memptr s)) s))
  else Next (set_memptr (S (memptr s)) s).
Proof. reflexivity. Qed.

Lemma exec_left s :
  exec_instr "<" s =
  if 0 <? memptr s then Next (set_memptr (memptr s - 1) s) else Next s.
Proof. reflexivity. Qed.

Lemma exec_plus s :
  exec_instr "+" s =
  match memory s !! memptr s with
  | Some v => Next (set_memory (<[memptr s := ((v + 1) mod 256)%Z]> (memory s)) s)
  | None => Undef
  end.
Proof. reflexivity. Qed.

Lemma exec_minus s :
  exec_instr "-" s =
  match memory s !! memptr s with
  | Some v => Next (set_memory (<[memptr s := ((v - 1) mod 256)%Z]> (memory s)) s)
  | None => Undef
  end.
Proof. reflexivity. Qed.

Lemma exec_dot s :
  exec_instr "." s =
  match memory s !! memptr s with
  | Some v => Next (set_cout (cout s ++ [v]) s)
  | None => Undef
  end.
Proof. reflexivity. Qed.

Lemma exec_comma s :
  exec_instr "," s =
  let '(input, failed, rest) := cin_get (cin s) in
  match memory s !! memptr s with
  | Some _ =>
      Next (set_memory (<[memptr s := store_input input failed]> (memory s))
              (set_cin rest s))
  | None => Undef
  end.
Proof. reflexivity. Qed.

Lemma exec_open s :
  exec_instr "[" s =
  match memory s !! memptr s with
  | Some v =>
      if (v =? 0)%Z then
        let '(pos, balance) :=
          scan_loop (drop (S (codeptr s)) (code s)) (S (codeptr s)) 1 in
        if (0 <? balance)%Z then Abort (UnmatchedOpenBracket (codeptr s)) s
        else Next (set_codeptr (pos - 1) s)
      else Next (set_loop_stack (codeptr s :: loop_stack s) s)
  | None => Undef
  end.
Proof. reflexivity. Qed.

Lemma exec_close s :
  exec_instr "]" s =
  match loop_stack s with
  | [] => Abort (UnmatchedCloseBracket (codeptr s)) s
  | top :: below =>
      match memory s !! memptr s with
      | Some v =>
          if (v =? 0)%Z then Next (set_loop_stack below s)
          else Next (set_codeptr top s)
      | None => Undef
      end
  end.
Proof. reflexivity. Qed.

Lemma exec_other c s : is_instruction c = false -> exec_instr c s = Next s.
Proof.
  unfold is_instruction, exec_instr. intros H.
  repeat (apply orb_false_elim in H; destruct H as [H ?]).
  repeat match goal with E : Ascii.eqb _ _ = false |- _ => rewrite E; clear E end.
  reflexivity.
Qed.

Lemma instruction_cases c :
  c = ">"%char \/ c = "<"%char \/ c = "+"%char \/ c = "-"%char \/
  c = "."%char \/ c = ","%char \/ c = "["%char \/ c = "]"%char \/
  is_instruction c = false.
Proof.
  unfold is_instruction.
  destruct (Ascii.eqb_spec c ">"); [tauto|].
  destruct (Ascii.eqb_spec c "<"); [tauto|].
  destruct (Ascii.eqb_spec c "+"); [tauto|].
  destruct (Ascii.eqb_spec c "-"); [tauto|].
  destruct (Ascii.eqb_spec c "."); [tauto|].
  destruct (Ascii.eqb_spec c ","); [tauto|].
  destruct (Ascii.eqb_spec c "["); [tauto|].
  destruct (Ascii.eqb_spec c "]"); tauto.
Qed.

(** ** reset *)

(** C7.  [reset] zeroes every cell, sets both pointers to 0 and empties the
    loop stack; the loaded program and the length of the tape are as
    before (a tape that has grown stays grown). *)
Theorem reset_effect (s : BrainfuckInterpreter) :
  memory (reset s) = replicate (length (memory s)) 0%Z /\
  (forall i, i < length (memory s) -> memory (reset s) !! i = Some 0%Z) /\
  length (memory (reset s)) = length (memory s) /\
  memptr (reset s) = 0 /\ codeptr (reset s) = 0 /\
  loop_stack (reset s) = [] /\
  code (reset s) = code s.
Proof.
  unfold reset; simpl. repeat split.
  - intros i Hi. by apply lookup_replicate_2.
  - apply length_replicate.
Qed.

Example reset_keeps_grown_tape :
  let s := set_memptr 7 (set_memory (replicate (2 * INITIAL_CELLS) 9%Z) (loadCode "+-" (new_interp []))) in
  Z.of_nat (length (memory (reset s))) = 60000%Z /\ code (reset s) = code s.
Proof. split; vm_compute; reflexivity. Qed.

(** ** Failing the pre-pass *)

(** C4.  When the pre-pass fails, [execute] returns at once, whatever the
    fuel: the result is the failure [UnmatchedBrackets] and the engine is
    exactly as it was (no cell, pointer or stack entry is touched and no
    reset takes place). *)
Theorem execute_unmatched_brackets (s : BrainfuckInterpreter) (fuel : nat) :
  validateBrackets s = false ->
  execute fuel s = Some (Failed UnmatchedBrackets s).
Proof. intros H. unfold execute. rewrite H. reflexivity. Qed.

Lemma execute_unmatched_brackets_witness :
  validateBrackets (dirty_engine "[+") = false /\
  execute 0 (dirty_engine "[+") = Some (Failed UnmatchedBrackets (dirty_engine "[+")).
Proof.
  split; [reflexivity | apply execute_unmatched_brackets; reflexivity].
Defined.

Example execute_unmatched_close fuel :
  execute fuel (dirty_engine "+]") = Some (Failed UnmatchedBrackets (dirty_engine "+]")).
Proof. apply execute_unmatched_brackets. reflexivity. Qed.

(** ** Cell arithmetic *)

(** C8.  [+] and [-] replace the current cell [v] by [(v + 1) mod 256] and
    [(v - 1) mod 256]: a cell holding 255 becomes 0 under [+], and a cell
    holding 0 becomes 255 under [-]. *)
Theorem cell_arithmetic_wraps (s : BrainfuckInterpreter) (v : Z) :
  memory s !! memptr s = Some v ->
  (code s !! codeptr s = Some "+"%char ->
   exists s', step s = Next s' /\
     s' = set_codeptr (S (codeptr s))
            (set_memory (<[memptr s := ((v + 1) mod 256)%Z]> (memory s)) s) /\
     memory s' !! memptr s' = Some ((v + 1) mod 256)%Z /\
     (v = 255%Z -> memory s' !! memptr s' = Some 0%Z)) /\
  (code s !! codeptr s = Some "-"%char ->
   exists s', step s = Next s' /\
     s' = set_codeptr (S (codeptr s))
            (set_memory (<[memptr s := ((v - 1) mod 256)%Z]> (memory s)) s) /\
     memory s' !! memptr s' = Some ((v - 1) mod 256)%Z /\
     (v = 0%Z -> memory s' !! memptr s' = Some 255%Z)).
Proof.
  intros Hv. pose proof (lookup_lt_Some _ _ _ Hv) as Hlt.
  split; intros Hc; rewrite (step_dispatch _ _ Hc);
    [rewrite exec_plus | rewrite exec_minus]; rewrite Hv;
    eexists; (split; [reflexivity|]); (split; [reflexivity|]); simpl;
    rewrite list_lookup_insert_eq by done; (split; [reflexivity|]);
    intros ->; reflexivity.
Qed.

Lemma cell_arithmetic_wraps_witness :
  memory (one_cell_at 255 "+") !! memptr (one_cell_at 255 "+") = Some 255%Z /\
  (exists s', step (one_cell_at 255 "+") = Next s' /\ memory s' !! memptr s' = Some 0%Z) /\
  (exists s', step (one_cell_at 0 "-") = Next s' /\ memory s' !! memptr s' = Some 255%Z).
Proof.
  split; [reflexivity|]. split.
  - destruct (cell_arithmetic_wraps (one_cell_at 255 "+") 255 eq_refl) as [H _].
    destruct (H eq_refl) as (s' & Hs & _ & _ & H255). exists s'. split; [exact Hs | by apply H255].
  - destruct (cell_arithmetic_wraps (one_cell_at 0 "-") 0 eq_refl) as [_ H].
    destruct (H eq_refl) as (s' & Hs & _ & _ & H0). exists s'. split; [exact Hs | by apply H0].
Defined.

(** ** Input *)

Lemma store_input_byte b : cell_ok b -> store_input b false = b.
Proof.
  unfold cell_ok, store_input, EOF. intros H.
  destruct (Z.eqb_spec b (-1)); [lia|]. apply Z.mod_small. lia.
Qed.

Lemma store_input_ok input failed : cell_ok (store_input input failed).
Proof.
  unfold cell_ok, store_input. destruct failed; [lia|].
  destruct (input =? EOF)%Z; [lia|]. apply Z.mod_pos_bound. lia.
Qed.

(** C9.  [,] never stops the run.  With a byte [b] (0 to 255) at the head
    of the input it stores [b] in the current cell and consumes it; at the
    end of the input it stores 0.  A read whose fail bit is set stores 0
    whatever value came back. *)
Theorem comma_reads_or_zeroes (s : BrainfuckInterpreter) (v : Z) :
  code s !! codeptr s = Some ","%char ->
  memory s !! memptr s = Some v ->
  (forall b rest, cin s = b :: rest -> cell_ok b ->
     step s = Next (set_codeptr (S (codeptr s))
                      (set_memory (<[memptr s := b]> (memory s)) (set_cin rest s)))) /\
  (cin s = [] ->
     step s = Next (set_codeptr (S (codeptr s))
                      (set_memory (<[memptr s := 0%Z]> (memory s)) (set_cin [] s)))) /\
  (exists s', step s = Next s' /\ exists w, memory s' !! memptr s' = Some w /\ cell_ok w) /\
  (forall input, store_input input true = 0%Z) /\
  store_input EOF false = 0%Z.
Proof.
  intros Hc Hv. pose proof (lookup_lt_Some _ _ _ Hv) as Hlt.
  rewrite (step_dispatch _ _ Hc), exec_comma. repeat split.
  - intros b rest Hin Hb. rewrite Hin. cbn [cin_get]. rewrite Hv.
    rewrite (store_input_byte b Hb). reflexivity.
  - intros Hin. rewrite Hin. cbn [cin_get]. rewrite Hv. reflexivity.
  - destruct (cin_get (cin s)) as [[input failed] rest]. rewrite Hv.
    eexists. split; [reflexivity|]. simpl. eexists.
    rewrite list_lookup_insert_eq by done. split; [reflexivity|].
    apply store_input_ok.
Qed.

Lemma comma_reads_or_zeroes_witness :
  (exists s', step (echo_engine [200%Z; 3%Z]) = Next s' /\
              memory s' !! 0 = Some 200%Z /\ cin s' = [3%Z]) /\
  (exists s', step (echo_engine []) = Next s' /\ memory s' !! 0 = Some 0%Z).
Proof.
  split.
  - destruct (comma_reads_or_zeroes (echo_engine [200%Z; 3%Z]) 9 eq_refl eq_refl) as [H _].
    eexists. split; [apply (H 200%Z [3%Z] eq_refl); unfold cell_ok; lia|].
    split; reflexivity.
  - destruct (comma_reads_or_zeroes (echo_engine []) 9 eq_refl eq_refl) as (_ & H & _).
    eexists. split; [apply (H eq_refl)|]. reflexivity.
Defined.

(** ** The structure of brackets *)

Section Brackets.
Variable cs : list ascii.

Lemma opens_open p : cs !! p = Some "["%char -> opens cs (S p) = p :: opens cs p.
Proof. intros H. simpl. rewrite H. reflexivity. Qed.

Lemma opens_close p : cs !! p = Some "]"%char -> opens cs (S p) = tail (opens cs p).
Proof. intros H. simpl. rewrite H. reflexivity. Qed.

Lemma opens_other p c :
  cs !! p = Some c -> c <> "["%char -> c <> "]"%char -> opens cs (S p) = opens cs p.
Proof.
  intros H H1 H2. simpl. rewrite H.
  destruct (Ascii.eqb_spec c "["); [done|].
  destruct (Ascii.eqb_spec c "]"); done.
Qed.

Lemma balance_take_S p c :
  cs !! p = Some c -> balance (take (S p) cs) = (balance (take p cs) + weight c)%Z.
Proof.
  intros H. rewrite (take_S_r _ _ _ H), balance_app. simpl. lia.
Qed.

(** The innermost open bracket: where it is, what lies below it, and that
    it stays on the stack all the way from its position to [p]. *)
Lemma opens_top p : forall q below,
  opens cs p = q :: below ->
  q < p /\ cs !! q = Some "["%char /\ opens cs q = below /\
  forall k, q < k <= p -> exists ext, opens cs k = ext ++ q :: below.
Proof.
  induction p as [p IH] using lt_wf_ind. intros q below Htop.
  destruct p as [|p]; [discriminate|].
  assert (Hlast : forall k, q < k <= S p ->
            (q < k <= p -> exists ext, opens cs k = ext ++ q :: below) ->
            exists ext, opens cs k = ext ++ q :: below).
  { intros k Hk Hlow. destruct (decide (k = S p)) as [->|]; [by exists []|].
    apply Hlow. lia. }
  pose proof Htop as Hs. simpl in Hs.
  destruct (cs !! p) as [c|] eqn:Hc.
  - destruct (Ascii.eqb_spec c "[") as [->|Hno].
    + injection Hs as <- <-. repeat split; [lia|done|].
      intros k Hk. apply Hlast; [done|lia].
    + destruct (Ascii.eqb_spec c "]") as [->|Hnc].
      * destruct (opens cs p) as [|x rest] eqn:Hp; [discriminate|].
        simpl in Hs. subst rest.
        destruct (IH p ltac:(lia) _ _ Hp) as (Hx & _ & Hbelow & Hmid).
        destruct (IH x ltac:(lia) _ _ Hbelow) as (Hq & Hoq & Hrest & Hlow).
        repeat split; [lia|done|done|].
        intros k Hk. apply Hlast; [done|]. intros Hk'.
        destruct (decide (k <= x)) as [Hle|Hgt]; [apply Hlow; lia|].
        destruct (Hmid k ltac:(lia)) as [ext Hext].
        exists (ext ++ [x]). by rewrite <- app_assoc.
      * destruct (IH p ltac:(lia) _ _ Hs) as (Hq & Hoq & Hrest & Hlow).
        repeat split; [lia|done|done|].
        intros k Hk. apply Hlast; [done|]. intros Hk'. by apply Hlow.
  - destruct (IH p ltac:(lia) _ _ Hs) as (Hq & Hoq & Hrest & Hlow).
    repeat split; [lia|done|done|].
    intros k Hk. apply Hlast; [done|]. intros Hk'. by apply Hlow.
Qed.

(** The forward scan, started at [k] with as many pending brackets as
    there are entries in [ext], read against the stack of open brackets:
    it stops at the first position where the stack is back to [base], or
    at the end of the program. *)
Lemma scan_loop_opens n : forall k ext base pos bal,
  length cs - k = n -> k <= length cs ->
  opens cs k = ext ++ base ->
  scan_loop (drop k cs) k (Z.of_nat (length ext)) = (pos, bal) ->
  exists ext',
    opens cs pos = ext' ++ base /\ bal = Z.of_nat (length ext') /\
    k <= pos <= length cs /\
    (ext' <> [] -> pos = length cs) /\
    (forall j, k <= j < pos -> exists e, opens cs j = e ++ base /\ e <> []).
Proof.
  induction n as [|n IH]; intros k ext base pos bal Hn Hk Hopen Hscan.
  - rewrite drop_ge in Hscan by lia. simpl in Hscan. injection Hscan as <- <-.
    exists ext. repeat split; [done|lia|lia|intros; lia|intros; lia].
  - destruct (lookup_lt_is_Some_2 cs k ltac:(lia)) as [c Hc].
    rewrite (drop_S _ _ _ Hc) in Hscan. simpl in Hscan.
    destruct ext as [|e ext].
    + simpl in Hscan. injection Hscan as <- <-.
      exists []. repeat split; [done|lia|lia|done|intros; lia].
    + replace (0 <? Z.of_nat (length (e :: ext)))%Z with true in Hscan
        by (symmetry; apply Z.ltb_lt; simpl length; lia).
      rewrite bump_weight in Hscan.
      assert (Hnext : exists ext1, opens cs (S k) = ext1 ++ base /\
                (Z.of_nat (length (e :: ext)) + weight c)%Z = Z.of_nat (length ext1)).
      { unfold weight. destruct (Ascii.eqb_spec c "[") as [->|Hno].
        - exists (k :: e :: ext). rewrite (opens_open _ Hc), Hopen.
          split; [done|]. simpl length. lia.
        - destruct (Ascii.eqb_spec c "]") as [->|Hnc].
          + exists ext. rewrite (opens_close _ Hc), Hopen.
            split; [done|]. simpl length. lia.
          + exists (e :: ext). rewrite (opens_other _ _ Hc Hno Hnc), Hopen.
            split; [done|]. lia. }
      destruct Hnext as (ext1 & Hopen1 & Hlen1). rewrite Hlen1 in Hscan.
      destruct (IH (S k) ext1 base pos bal ltac:(lia) ltac:(lia) Hopen1 Hscan)
        as (ext' & H1 & H2 & H3 & H4 & H5).
      exists ext'. repeat split; [done|done|lia|lia|done|].
      intros j Hj. destruct (decide (j = k)) as [->|Hjk].
      * exists (e :: ext). done.
      * apply H5. lia.
Qed.

Hypothesis Hvalid : validate_loop 0 cs = true.

Lemma valid_prefix k : (0 <= balance (take k cs))%Z.
Proof.
  apply validate_loop_spec in Hvalid; [|lia]. destruct Hvalid as [H _].
  specialize (H k). lia.
Qed.

Lemma valid_total : balance cs = 0%Z.
Proof.
  apply validate_loop_spec in Hvalid; [|lia]. destruct Hvalid as [_ H]. lia.
Qed.

(** In a program that passes the pre-pass, the number of open brackets
    is the running balance. *)
Lemma opens_depth p :
  p <= length cs -> Z.of_nat (length (opens cs p)) = balance (take p cs).
Proof.
  induction p as [|p IH]; intros Hp; [by rewrite take_0|].
  destruct (lookup_lt_is_Some_2 cs p ltac:(lia)) as [c Hc].
  pose proof (valid_prefix (S p)) as Hpos.
  rewrite (balance_take_S _ _ Hc) in Hpos |- *.
  specialize (IH ltac:(lia)). rewrite <- IH in Hpos |- *. clear IH.
  revert Hpos. unfold weight.
  destruct (Ascii.eqb_spec c "[") as [->|Hno].
  - rewrite (opens_open _ Hc). simpl length. lia.
  - destruct (Ascii.eqb_spec c "]") as [->|Hnc].
    + rewrite (opens_close _ Hc). destruct (opens cs p); simpl; lia.
    + rewrite (opens_other _ _ Hc Hno Hnc). lia.
Qed.

Lemma opens_end : opens cs (length cs) = [].
Proof.
  pose proof (opens_depth (length cs) ltac:(lia)) as H.
  rewrite take_ge, valid_total in H by lia.
  destruct (opens cs (length cs)); [done | simpl in H; lia].
Qed.

(** No []] is met with nothing open. *)
Lemma opens_before_close p : cs !! p = Some "]"%char -> opens cs p <> [].
Proof.
  intros Hc Hnil. pose proof (lookup_lt_Some _ _ _ Hc) as Hlt.
  pose proof (valid_prefix (S p)) as Hpos.
  rewrite (balance_take_S _ _ Hc) in Hpos.
  rewrite <- (opens_depth p) in Hpos by lia. rewrite Hnil in Hpos.
  simpl in Hpos. unfold weight in Hpos. simpl in Hpos. lia.
Qed.

(** The forward scan of a [[] at [p] ends with balance 0, one past a
    position from which the open brackets are those before [p]. *)
Lemma scan_from_open p pos bal :
  cs !! p = Some "["%char ->
  scan_loop (drop (S p) cs) (S p) 1 = (pos, bal) ->
  bal = 0%Z /\ S p <= pos <= length cs /\ opens cs pos = opens cs p.
Proof.
  intros Hc Hscan. pose proof (lookup_lt_Some _ _ _ Hc) as Hlt.
  destruct (scan_loop_opens (length cs - S p) (S p) [p] (opens cs p) pos bal)
    as (ext' & H1 & H2 & H3 & H4 & _); [done|lia|by apply opens_open|done|].
  destruct ext' as [|e ext'].
  - simpl in *. done.
  - rewrite (H4 ltac:(done)), opens_end in H1. discriminate.
Qed.

(** The [[] on top of the stack at a []] is the one that matches it. *)
Lemma top_matches p q below :
  cs !! p = Some "]"%char -> opens cs p = q :: below -> matching cs q p.
Proof.
  intros Hc Htop. pose proof (lookup_lt_Some _ _ _ Hc) as Hlt.
  destruct (opens_top p q below Htop) as (Hq & Hoq & Hbelow & Hmid).
  unfold matching. repeat split; [done|done|done|].
  destruct (scan_loop (drop (S q) cs) (S q) 1) as [pos bal] eqn:Hscan.
  destruct (scan_loop_opens (length cs - S q) (S q) [q] below pos bal)
    as (ext' & H1 & H2 & H3 & H4 & H5);
    [done|lia|by rewrite (opens_open _ Hoq), Hbelow|done|].
  assert (Hafter : opens cs (S p) = below)
    by (by rewrite (opens_close _ Hc), Htop).
  assert (Hle : pos <= S p).
  { destruct (decide (pos <= S p)) as [|Hgt]; [done|].
    destruct (H5 (S p) ltac:(lia)) as (e & He & Hne).
    rewrite Hafter in He. apply (f_equal length) in He.
    rewrite !length_app in He. destruct e; [done | simpl in He; lia]. }
  assert (Hge : S p <= pos).
  { destruct ext' as [|e ext']; [|specialize (H4 ltac:(done)); lia].
    destruct (decide (S p <= pos)) as [|Hlt']; [done|].
    destruct (Hmid pos ltac:(lia)) as [ext Hext].
    rewrite H1 in Hext. apply (f_equal length) in Hext.
    rewrite !length_app in Hext. simpl in Hext. lia. }
  assert (pos = S p) as -> by lia.
  rewrite Hafter in H1. apply (f_equal length) in H1. rewrite !length_app in H1.
  f_equal. subst bal. lia.
Qed.
End Brackets.

(** ** The invariant of the dispatch loop *)

Lemma cell_ok_mod v : cell_ok (v mod 256)%Z.
Proof. unfold cell_ok. apply Z.mod_pos_bound. lia. Qed.

Lemma prepare_inv s0 :
  validateBrackets s0 = true -> 0 < length (memory s0) -> Inv s0 (prepare s0).
Proof.
  intros Hv Hm. unfold prepare. constructor; simpl_state; try done.
  - lia.
  - by rewrite length_replicate.
  - apply Forall_replicate. unfold cell_ok. lia.
  - by rewrite length_replicate.
Qed.

(** One turn from a state of the loop: either the loop goes on from a
    state where the invariant holds again, or [>] has hit the limit. *)
Lemma step_progress s0 s :
  Inv s0 s -> codeptr s < length (code s) ->
  (exists s', step s = Next s' /\ Inv s0 s') \/
  (code s !! codeptr s = Some ">"%char /\
   S (memptr s) = length (memory s) /\ MEMORY_LIMIT <= length (memory s) /\
   step s = Abort MemoryLimitExceeded (set_memptr (S (memptr s)) s)).
Proof.
  intros [Hcode Hvalid Hcp Hmp Hstack Hcells Hgrow] Hlt.
  destruct (lookup_lt_is_Some_2 _ _ Hlt) as [c Hc].
  destruct (lookup_lt_is_Some_2 _ _ Hmp) as [v Hv].
  rewrite (step_dispatch _ _ Hc).
  destruct (instruction_cases c)
    as [->|[->|[->|[->|[->|[->|[->|[->|Hother]]]]]]]].
  - (* > *)
    rewrite exec_right.
    destruct (Nat.leb_spec (length (memory s)) (S (memptr s))) as [Hend|Hin].
    + destruct (Nat.leb_spec MEMORY_LIMIT (length (memory s))) as [Hfull|Hroom].
      * right. repeat split; [done|lia|done].
      * left. eexists. split; [reflexivity|].
        constructor; close_inv (opens_other _ _ _ Hc).
        apply Forall_resize; [unfold cell_ok; lia | done].
    + left. eexists. split; [reflexivity|]. constructor; close_inv (opens_other _ _ _ Hc).
  - (* < *)
    rewrite exec_left. left.
    destruct (0 <? memptr s); eexists; (split; [reflexivity|]);
      constructor; close_inv (opens_other _ _ _ Hc).
  - (* + *)
    rewrite exec_plus, Hv. left. eexists. split; [reflexivity|].
    constructor; close_inv (opens_other _ _ _ Hc).
    apply Forall_insert; [done | apply cell_ok_mod].
  - (* - *)
    rewrite exec_minus, Hv. left. eexists. split; [reflexivity|].
    constructor; close_inv (opens_other _ _ _ Hc).
    apply Forall_insert; [done | apply cell_ok_mod].
  - (* . *)
    rewrite exec_dot, Hv. left. eexists. split; [reflexivity|].
    constructor; close_inv (opens_other _ _ _ Hc).
  - (* , *)
    rewrite exec_comma. destruct (cin_get (cin s)) as [[input failed] rest].
    rewrite Hv. left. eexists. split; [reflexivity|].
    constructor; close_inv (opens_other _ _ _ Hc).
    apply Forall_insert; [done | apply store_input_ok].
  - (* [ *)
    rewrite exec_open, Hv. left. destruct (v =? 0)%Z.
    + destruct (scan_loop (drop (S (codeptr s)) (code s)) (S (codeptr s)) 1)
        as [pos bal] eqn:Hscan.
      destruct (scan_from_open _ Hvalid _ _ _ Hc Hscan) as (-> & Hpos & Hopens).
      simpl. eexists. split; [reflexivity|].
      constructor; close_inv (opens_other _ _ _ Hc).
      replace (S (pos - 1)) with pos by lia. congruence.
    + eexists. split; [reflexivity|].
      constructor; close_inv (opens_other _ _ _ Hc).
      rewrite (opens_open _ _ Hc). congruence.
  - (* ] *)
    rewrite exec_close. left.
    destruct (loop_stack s) as [|top below] eqn:Hls.
    { exfalso. by apply (opens_before_close _ Hvalid _ Hc). }
    rewrite Hv. symmetry in Hstack.
    destruct (opens_top _ _ _ _ Hstack) as (Htop & Hopen & Hbelow & _).
    destruct (v =? 0)%Z; eexists; (split; [reflexivity|]);
      constructor; close_inv (opens_other _ _ _ Hc).
    + by rewrite (opens_close _ _ Hc), Hstack.
    + rewrite Hls, (opens_open _ _ Hopen). congruence.
  - (* any other character *)
    rewrite (exec_other _ _ Hother). left. eexists. split; [reflexivity|].
    assert (c <> "["%char /\ c <> "]"%char) as [H1 H2]
      by (split; intros ->; discriminate).
    constructor; close_inv (opens_other _ _ _ Hc).
Qed.

Lemma reaches_inv s0 s :
  validateBrackets s0 = true -> 0 < length (memory s0) ->
  reaches (prepare s0) s -> Inv s0 s.
Proof.
  intros Hv Hm Hr. induction Hr as [|s1 s2 Hr IH Hlt Hstep].
  - by apply prepare_inv.
  - destruct (step_progress _ _ IH Hlt) as [(s' & Hs & Hinv)|(_ & _ & _ & Hs)];
      congruence.
Qed.

Lemma reaches_first s s1 s2 :
  codeptr s < length (code s) -> step s = Next s1 -> reaches s1 s2 -> reaches s s2.
Proof.
  intros H1 H2 Hr. induction Hr as [|sa sb Hr IH Hlt Hs].
  - eapply reaches_next; [apply reaches_here|done|done].
  - eapply reaches_next; [by apply IH|done|done].
Qed.

Lemma going_reaches n : forall s, going n s = true -> reaches s (after n s).
Proof.
  induction n as [|n IH]; intros s; simpl; [intros _; apply reaches_here|].
  intros H. apply andb_prop in H as [Hlt Hgo]. apply Nat.ltb_lt in Hlt.
  unfold turn. destruct (step s) as [s'| |] eqn:Hs; try discriminate.
  eapply reaches_first; [done|done|by apply IH].
Qed.

Lemma run_turn fuel s s' :
  codeptr s < length (code s) -> step s = Next s' -> run (S fuel) s = run fuel s'.
Proof.
  intros Hlt Hs. simpl. apply Nat.ltb_lt in Hlt. rewrite Hlt, Hs. reflexivity.
Qed.

Lemma run_abort fuel s why s' :
  codeptr s < length (code s) -> step s = Abort why s' ->
  run (S fuel) s = Some (Failed why s').
Proof.
  intros Hlt Hs. simpl. apply Nat.ltb_lt in Hlt. rewrite Hlt, Hs. reflexivity.
Qed.

Lemma run_done fuel s :
  length (code s) <= codeptr s -> run fuel s = Some (Completed s).
Proof.
  intros Hge. destruct (Nat.ltb_spec (codeptr s) (length (code s))) as [|_]; [lia|].
  destruct fuel; simpl; destruct (Nat.ltb_spec (codeptr s) (length (code s))); done || lia.
Qed.

(** More fuel does not change a result. *)
Lemma run_more_fuel fuel : forall fuel' s r,
  fuel <= fuel' -> run fuel s = Some r -> run fuel' s = Some r.
Proof.
  induction fuel as [|fuel IH]; intros fuel' s r Hle; simpl;
    destruct (Nat.ltb_spec (codeptr s) (length (code s))) as [Hlt|Hge];
    try discriminate; try (intros [= <-]; by apply run_done).
  destruct fuel' as [|fuel']; [lia|]. simpl.
  apply Nat.ltb_lt in Hlt. rewrite Hlt.
  destruct (step s); [apply IH; lia | done | done].
Qed.

(** What [run] returns, read against the states of the loop. *)
Lemma run_reaches fuel : forall s r,
  run fuel s = Some r ->
  exists s1, reaches s s1 /\
    ((length (code s1) <= codeptr s1 /\ r = Completed s1) \/
     (codeptr s1 < length (code s1) /\
      ((exists why s2, step s1 = Abort why s2 /\ r = Failed why s2) \/
       (step s1 = Undef /\ r = Undefined)))).
Proof.
  induction fuel as [|fuel IH]; intros s r; simpl;
    destruct (Nat.ltb_spec (codeptr s) (length (code s))) as [Hlt|Hge];
    try discriminate;
    try (intros [= <-]; exists s; split; [apply reaches_here | left; split; [lia|done]]).
  destruct (step s) as [s'|why s'|] eqn:Hstep.
  - intros Hrun. destruct (IH _ _ Hrun) as (s1 & Hr & Hend).
    exists s1. split; [|done]. by eapply reaches_first.
  - intros [= <-]. exists s. split; [apply reaches_here|].
    right. split; [done|]. left. by exists why, s'.
  - intros [= <-]. exists s. split; [apply reaches_here|].
    right. split; [done|]. by right.
Qed.

Lemma run_after n : forall s fuel,
  going n s = true -> run (n + fuel) s = run fuel (after n s).
Proof.
  induction n as [|n IH]; intros s fuel; [done|]. cbn [going after]. intros H.
  apply andb_prop in H as [Hlt Hgo]. apply Nat.ltb_lt in Hlt.
  unfold turn. destruct (step s) as [s'| |] eqn:Hs; try discriminate.
  replace (S n + fuel) with (S (n + fuel)) by lia.
  rewrite (run_turn _ _ _ Hlt Hs). by apply IH.
Qed.

Lemma execute_valid fuel s :
  validateBrackets s = true -> execute fuel s = run fuel (prepare s).
Proof. intros H. unfold execute. rewrite H. reflexivity. Qed.

(** A freshly constructed engine has its 30000 cells, whatever is loaded. *)
Lemma new_interp_cells program input :
  0 < length (memory (loadCode program (new_interp input))) <= MEMORY_LIMIT.
Proof.
  cbn [loadCode new_interp set_code memory]. rewrite length_replicate.
  unfold INITIAL_CELLS, MEMORY_LIMIT. lia.
Qed.

(** ** Bracket aborts are out of reach after the pre-pass *)

(** C10.  In every state that the dispatch loop of [execute] goes through
    on a program accepted by [validateBrackets]: the forward scan of a [[]
    ends with its balance at 0, a []] finds the loop stack nonempty, and the
    turn neither aborts with [UnmatchedOpenBracket] or
    [UnmatchedCloseBracket] nor touches a cell outside the tape.  So no
    [execute] of such a program returns one of these two failures. *)
Theorem validated_run_has_no_bracket_abort (s0 s : BrainfuckInterpreter) :
  validateBrackets s0 = true -> 0 < length (memory s0) ->
  reaches (prepare s0) s -> codeptr s < length (code s) ->
  (code s !! codeptr s = Some "["%char ->
   exists pos, scan_loop (drop (S (codeptr s)) (code s)) (S (codeptr s)) 1 = (pos, 0%Z)
               /\ pos <= length (code s)) /\
  (code s !! codeptr s = Some "]"%char -> loop_stack s <> []) /\
  (forall pos s', step s <> Abort (UnmatchedOpenBracket pos) s' /\
                  step s <> Abort (UnmatchedCloseBracket pos) s') /\
  step s <> Undef /\
  (forall fuel pos s',
     execute fuel s0 <> Some (Failed (UnmatchedOpenBracket pos) s') /\
     execute fuel s0 <> Some (Failed (UnmatchedCloseBracket pos) s')).
Proof.
  intros Hv Hm Hr Hlt. pose proof (reaches_inv _ _ Hv Hm Hr) as HI.
  assert (Hstep : forall t, Inv s0 t -> codeptr t < length (code t) ->
            (exists t', step t = Next t') \/ (exists t', step t = Abort MemoryLimitExceeded t')).
  { intros t Ht Hl. destruct (step_progress _ _ Ht Hl) as [(t' & H & _)|(_ & _ & _ & H)];
      [left | right]; eexists; exact H. }
  split; [|split; [|split; [|split]]].
  - intros Hc.
    destruct (scan_loop (drop (S (codeptr s)) (code s)) (S (codeptr s)) 1)
      as [pos bal] eqn:Hscan.
    destruct (scan_from_open _ (inv_valid _ _ HI) _ _ _ Hc Hscan) as (-> & Hpos & _).
    exists pos. split; [done|lia].
  - intros Hc. rewrite (inv_stack _ _ HI).
    by apply (opens_before_close _ (inv_valid _ _ HI)).
  - intros pos s'. destruct (Hstep _ HI Hlt) as [[t' H]|[t' H]]; rewrite H; done.
  - destruct (Hstep _ HI Hlt) as [[t' H]|[t' H]]; rewrite H; done.
  - intros fuel pos s'. rewrite (execute_valid _ _ Hv).
    assert (Hno : forall r, run fuel (prepare s0) = Some r ->
              forall why t, r = Failed why t -> why = MemoryLimitExceeded).
    { intros r Hrun why t ->. destruct (run_reaches _ _ _ Hrun) as (s1 & Hr1 & Hend).
      destruct Hend as [[_ ?]|[Hl1 [(why' & t' & Hs & [= -> ->])|[_ ?]]]]; try done.
      destruct (Hstep _ (reaches_inv _ _ Hv Hm Hr1) Hl1) as [[t1 H]|[t1 H]];
        rewrite H in Hs; congruence. }
    split; intros H; by specialize (Hno _ H _ _ eq_refl).
Qed.

Lemma validated_run_has_no_bracket_abort_witness :
  (exists pos, scan_loop (drop 1 (code (loadCode "[-]+" (new_interp [])))) 1 1 = (pos, 0%Z)) /\
  loop_stack (after 3 (prepare (loadCode "+[-]" (new_interp [])))) <> [].
Proof.
  split.
  - destruct (validated_run_has_no_bracket_abort
                (loadCode "[-]+" (new_interp [])) (prepare (loadCode "[-]+" (new_interp []))))
      as [H _]; [reflexivity | apply new_interp_cells | apply reaches_here | vm_compute; lia |].
    destruct (H eq_refl) as (pos & Hpos & _). by exists pos.
  - destruct (validated_run_has_no_bracket_abort
                (loadCode "+[-]" (new_interp []))
                (after 3 (prepare (loadCode "+[-]" (new_interp [])))))
      as (_ & H & _);
      [reflexivity | apply new_interp_cells | apply going_reaches; vm_compute; reflexivity
      | vm_compute; lia |].
    apply H. vm_compute. reflexivity.
Defined.

(** ** The closing bracket *)

(** C1.  At a []] with a nonempty loop stack: when the current cell is not
    zero the turn leaves the stack as it is and ends with the instruction
    pointer one past the top entry; when the cell is zero it pops the stack
    and ends with the instruction pointer on the next instruction.  In a
    state of an [execute] call the top entry is the position of the [[]
    that matches this []]. *)
Theorem close_bracket_turn (s : BrainfuckInterpreter) (top : nat) (below : list nat) (v : Z) :
  code s !! codeptr s = Some "]"%char ->
  loop_stack s = top :: below ->
  memory s !! memptr s = Some v ->
  (v <> 0%Z ->
   step s = Next (set_codeptr (S top) s) /\
   loop_stack (set_codeptr (S top) s) = top :: below) /\
  (v = 0%Z ->
   step s = Next (set_codeptr (S (codeptr s)) (set_loop_stack below s))) /\
  (forall s0, validateBrackets s0 = true -> 0 < length (memory s0) ->
     reaches (prepare s0) s -> matching (code s) top (codeptr s)).
Proof.
  intros Hc Hls Hv. rewrite (step_dispatch _ _ Hc), exec_close, Hls, Hv.
  split; [|split].
  - intros Hnz. apply Z.eqb_neq in Hnz. rewrite Hnz. done.
  - intros ->. done.
  - intros s0 Hval Hm Hr. pose proof (reaches_inv _ _ Hval Hm Hr) as HI.
    apply (top_matches _ _ _ below Hc). by rewrite <- (inv_stack _ _ HI).
Qed.

Lemma close_bracket_turn_witness :
  step (after 2 (prepare (loadCode "+[]" (new_interp []))))
    = Next (set_codeptr 2 (after 2 (prepare (loadCode "+[]" (new_interp []))))) /\
  step (after 3 (prepare (loadCode "+[-]" (new_interp []))))
    = Next (set_codeptr 4 (set_loop_stack [] (after 3 (prepare (loadCode "+[-]" (new_interp [])))))) /\
  matching (code (after 2 (prepare (loadCode "+[]" (new_interp []))))) 1 2.
Proof.
  pose proof (close_bracket_turn (after 2 (prepare (loadCode "+[]" (new_interp [])))) 1 [] 1)
    as (Hloop & _ & Hmatch);
    [vm_compute; reflexivity | vm_compute; reflexivity | vm_compute; reflexivity |].
  pose proof (close_bracket_turn (after 3 (prepare (loadCode "+[-]" (new_interp [])))) 1 [] 0)
    as (_ & Hexit & _);
    [vm_compute; reflexivity | vm_compute; reflexivity | vm_compute; reflexivity |].
  split; [apply Hloop; lia|]. split; [by apply Hexit|].
  apply (Hmatch (loadCode "+[]" (new_interp []))).
  - reflexivity.
  - apply new_interp_cells.
  - apply going_reaches. vm_compute. reflexivity.
Defined.

(** ** Moving right: growth and the memory limit *)

Lemma validate_rights n b : (0 <= b)%Z ->
  validate_loop b (replicate n ">"%char) = (b =? 0)%Z.
Proof.
  intros Hb. induction n as [|n IH]; [done|]. cbn [replicate validate_loop].
  change (bump ">" b) with b.
  destruct (Z.ltb_spec b 0); [lia | exact IH].
Qed.

Lemma filter_rights n : filter_code (replicate n ">"%char) = replicate n ">"%char.
Proof. induction n as [|n IH]; [done|]. simpl. by rewrite IH. Qed.

(** One [>] on a tape within the limit: it aborts on the last cell of a
    full tape, and otherwise moves on, over old cells or fresh zeros. *)
Lemma right_turn s :
  code s !! codeptr s = Some ">"%char ->
  memptr s < length (memory s) <= MEMORY_LIMIT ->
  (S (memptr s) = MEMORY_LIMIT /\ length (memory s) = MEMORY_LIMIT /\
   step s = Abort MemoryLimitExceeded (set_memptr (S (memptr s)) s)) \/
  (S (memptr s) < MEMORY_LIMIT /\
   exists s', step s = Next s' /\
     code s' = code s /\ codeptr s' = S (codeptr s) /\
     loop_stack s' = loop_stack s /\ memptr s' = S (memptr s) /\
     memptr s' < length (memory s') <= MEMORY_LIMIT /\
     (forall j w, memory s' !! j = Some w -> memory s !! j = Some w \/ w = 0%Z)).
Proof.
  intros Hc Hmem. rewrite (step_dispatch _ _ Hc), exec_right.
  destruct (Nat.leb_spec (length (memory s)) (S (memptr s))) as [Hend|Hin].
  - destruct (Nat.leb_spec MEMORY_LIMIT (length (memory s))) as [Hfull|Hroom].
    + left. repeat split; [lia|lia].
    + right. split; [lia|]. eexists. split; [reflexivity|]. simpl_state.
      rewrite length_resize. repeat split; try lia.
      intros j w. rewrite resize_ge by lia. intros Hj.
      apply lookup_app_Some in Hj as [Hj|[_ Hj]]; [by left|].
      right. by apply lookup_replicate_1 in Hj as [-> _].
  - right. split; [lia|]. eexists. split; [reflexivity|]. simpl_state.
    repeat split; try lia. intros j w Hj. by left.
Qed.

(** A run that has nothing but [>] ahead, and at least as many of them as
    there are cells up to the limit, ends on the memory limit. *)
Lemma run_of_rights m : forall s,
  (forall i, codeptr s <= i < length (code s) -> code s !! i = Some ">"%char) ->
  memptr s < length (memory s) <= MEMORY_LIMIT ->
  MEMORY_LIMIT - S (memptr s) <= m ->
  MEMORY_LIMIT - memptr s <= length (code s) - codeptr s ->
  exists fuel s', run fuel s = Some (Failed MemoryLimitExceeded s').
Proof.
  induction m as [|m IH]; intros s Hcode Hmem Hm Hleft;
    (assert (Hlt : codeptr s < length (code s)) by lia);
    pose proof (Hcode _ (conj (le_n _) Hlt)) as Hc;
    destruct (right_turn _ Hc Hmem)
      as [(_ & _ & Hs)|(Hroom & s' & Hs & Hcode' & Hcp' & _ & Hmp' & Hmem' & _)];
    try (exists 1; eexists; by apply run_abort); [lia|].
  destruct (IH s') as (fuel & s2 & Hrun).
  - intros i Hi. rewrite Hcode' in *. apply Hcode. lia.
  - done.
  - lia.
  - rewrite Hcode'. lia.
  - exists (S fuel), s2. by rewrite (run_turn _ _ _ Hlt Hs).
Qed.

(** C2.  [>] adds one to the data pointer.  When the new pointer is within
    the tape nothing else changes; when it reaches the length of a tape
    shorter than the limit, the tape becomes the old cells followed by
    zeros, of length twice the old one or 1,000,000 if that is less, and
    the pointer is within it; when it reaches the length of a tape already
    at the limit, the turn aborts with [MemoryLimitExceeded].  A program of
    at least 1,000,000 [>] fails with [MemoryLimitExceeded] after finitely
    many turns. *)
Theorem right_grows_or_aborts :
  (forall s, code s !! codeptr s = Some ">"%char -> memptr s < length (memory s) ->
     (S (memptr s) < length (memory s) ->
        step s = Next (set_codeptr (S (codeptr s)) (set_memptr (S (memptr s)) s))) /\
     (S (memptr s) = length (memory s) -> length (memory s) < MEMORY_LIMIT ->
        step s = Next (set_codeptr (S (codeptr s))
                   (set_memory
                      (memory s ++
                         replicate (Nat.min (length (memory s) * 2) MEMORY_LIMIT
                                    - length (memory s)) 0%Z)
                      (set_memptr (S (memptr s)) s))) /\
        S (memptr s) < Nat.min (length (memory s) * 2) MEMORY_LIMIT) /\
     (S (memptr s) = length (memory s) -> MEMORY_LIMIT <= length (memory s) ->
        step s = Abort MemoryLimitExceeded (set_memptr (S (memptr s)) s))) /\
  (forall s0 n, 0 < length (memory s0) <= MEMORY_LIMIT -> MEMORY_LIMIT <= n ->
     exists fuel s',
       execute fuel (loadCode (string_of_list_ascii (replicate n ">"%char)) s0)
       = Some (Failed MemoryLimitExceeded s')).
Proof.
  split.
  - intros s Hc Hmp. rewrite (step_dispatch _ _ Hc), exec_right.
    split; [|split].
    + intros Hin. destruct (Nat.leb_spec (length (memory s)) (S (memptr s))); [lia|done].
    + intros Hend Hroom.
      destruct (Nat.leb_spec (length (memory s)) (S (memptr s))); [|lia].
      destruct (Nat.leb_spec MEMORY_LIMIT (length (memory s))); [lia|].
      rewrite resize_ge by lia. split; [done|lia].
    + intros Hend Hfull.
      destruct (Nat.leb_spec (length (memory s)) (S (memptr s))); [|lia].
      destruct (Nat.leb_spec MEMORY_LIMIT (length (memory s))); [done|lia].
  - intros s0 n Hmem Hn.
    assert (Hcode : code (loadCode (string_of_list_ascii (replicate n ">"%char)) s0)
                    = replicate n ">"%char).
    { unfold loadCode. simpl_state.
      by rewrite list_ascii_of_string_of_list_ascii, filter_rights. }
    assert (Hval : validateBrackets
                     (loadCode (string_of_list_ascii (replicate n ">"%char)) s0) = true)
      by (unfold validateBrackets; rewrite Hcode; by apply validate_rights).
    destruct (run_of_rights (MEMORY_LIMIT - 1)
                (prepare (loadCode (string_of_list_ascii (replicate n ">"%char)) s0)))
      as (fuel & s' & Hrun).
    + intros i Hi. unfold prepare in *. simpl_state. rewrite Hcode in *.
      rewrite length_replicate in Hi. apply lookup_replicate_2. lia.
    + unfold prepare, loadCode. simpl_state. rewrite length_replicate. lia.
    + unfold prepare. simpl_state. lia.
    + unfold prepare. simpl_state. rewrite Hcode, length_replicate. lia.
    + exists fuel, s'. by rewrite (execute_valid _ _ Hval).
Qed.

Lemma right_grows_or_aborts_witness :
  (exists s', step at_last_cell = Next s' /\
              memory s' = replicate INITIAL_CELLS 0%Z ++ replicate INITIAL_CELLS 0%Z /\
              memptr s' = INITIAL_CELLS) /\
  (exists fuel s',
     execute fuel (loadCode (string_of_list_ascii (replicate MEMORY_LIMIT ">"%char))
                     (new_interp []))
     = Some (Failed MemoryLimitExceeded s')).
Proof.
  destruct right_grows_or_aborts as [Hstep Hrun]. split.
  - destruct (Hstep at_last_cell) as (_ & Hgrow & _).
    + reflexivity.
    + cbn [at_last_cell loadCode new_interp set_memptr set_code memory memptr].
      rewrite length_replicate. unfold INITIAL_CELLS. lia.
    + destruct Hgrow as [Hgrow _].
      * cbn [at_last_cell loadCode new_interp set_memptr set_code memory memptr].
        rewrite length_replicate. unfold INITIAL_CELLS. lia.
      * cbn [at_last_cell loadCode new_interp set_memptr set_code memory memptr].
        rewrite length_replicate. unfold INITIAL_CELLS, MEMORY_LIMIT. lia.
      * eexists. split; [exact Hgrow|].
        cbn [at_last_cell loadCode new_interp set_memptr set_memory set_codeptr
             set_code memory memptr].
        rewrite length_replicate. split; [f_equal; f_equal|];
          unfold INITIAL_CELLS, MEMORY_LIMIT; lia.
  - apply Hrun; [apply (new_interp_cells "") | lia].
Defined.

(** ** A loop that runs into the memory limit *)

(** From the [>] of [+[>+]], inside the loop, with zeros to the right of
    the data pointer: the run ends on the memory limit, with the loop still
    on the stack and the data pointer one past the last cell. *)
Lemma runaway_loop m : forall s,
  code s = runaway_code -> codeptr s = 2 -> loop_stack s = [1] ->
  memptr s < length (memory s) <= MEMORY_LIMIT ->
  MEMORY_LIMIT - S (memptr s) <= m ->
  (forall j w, memptr s < j -> memory s !! j = Some w -> w = 0%Z) ->
  exists fuel s',
    run fuel s = Some (Failed MemoryLimitExceeded s') /\
    loop_stack s' = [1] /\ memptr s' = length (memory s') /\
    length (memory s') = MEMORY_LIMIT.
Proof.
  induction m as [|m IH]; intros s Hcode Hcp Hls Hmem Hm Hzero;
    (assert (Hlt : codeptr s < length (code s)) by (rewrite Hcode, Hcp; simpl; lia));
    (assert (Hc : code s !! codeptr s = Some ">"%char) by (by rewrite Hcode, Hcp));
    destruct (right_turn _ Hc Hmem)
      as [(Hlast & Hfull & Hs)|(Hroom & s1 & Hs & Hcode1 & Hcp1 & Hls1 & Hmp1 & Hmem1 & Hold)];
    try (exists 1, (set_memptr (S (memptr s)) s);
         split; [by apply run_abort | simpl_state; repeat split; [done|lia|lia]]);
    [lia|].
  (* the cell under the pointer after [>] is zero *)
  destruct (lookup_lt_is_Some_2 (memory s1) (memptr s1) ltac:(lia)) as [w Hw].
  assert (w = 0%Z) as ->.
  { destruct (Hold _ _ Hw) as [Hw'| ->]; [|done]. apply (Hzero (memptr s1)); [lia|done]. }
  (* [+] *)
  assert (Hlt1 : codeptr s1 < length (code s1))
    by (rewrite Hcode1, Hcode, Hcp1, Hcp; simpl; lia).
  assert (Hc1 : code s1 !! codeptr s1 = Some "+"%char)
    by (by rewrite Hcode1, Hcode, Hcp1, Hcp).
  pose proof (step_dispatch _ _ Hc1) as Hs1. rewrite exec_plus, Hw in Hs1.
  simpl_state. change ((0 + 1) mod 256)%Z with 1%Z in Hs1.
  set (s2 := set_codeptr (S (codeptr s1))
               (set_memory (<[memptr s1 := 1%Z]> (memory s1)) s1)) in Hs1.
  (* []] on a cell that holds 1 *)
  assert (Hlt2 : codeptr s2 < length (code s2))
    by (unfold s2; simpl_state; rewrite Hcode1, Hcode, Hcp1, Hcp; simpl; lia).
  assert (Hc2 : code s2 !! codeptr s2 = Some "]"%char)
    by (unfold s2; simpl_state; by rewrite Hcode1, Hcode, Hcp1, Hcp).
  assert (Hls2 : loop_stack s2 = [1]) by (unfold s2; simpl_state; congruence).
  assert (Hw2 : memory s2 !! memptr s2 = Some 1%Z)
    by (unfold s2; simpl_state; apply list_lookup_insert_eq; lia).
  pose proof (step_dispatch _ _ Hc2) as Hs2.
  rewrite exec_close, Hls2, Hw2 in Hs2. simpl in Hs2.
  (* back at [>], one cell further *)
  match type of Hs2 with _ = Next ?s => set (s3 := s) in Hs2 end.
  destruct (IH s3) as (fuel & s' & Hrun & Hend).
  - unfold s3, s2. simpl_state. by rewrite Hcode1.
  - done.
  - unfold s3, s2. simpl_state. by rewrite Hls1.
  - unfold s3, s2. simpl_state. rewrite length_insert. lia.
  - unfold s3, s2. simpl_state. lia.
  - unfold s3, s2. simpl_state. intros j w Hj Hjw.
    rewrite list_lookup_insert_ne in Hjw by lia.
    destruct (Hold _ _ Hjw) as [Hw'| ->]; [|done]. apply (Hzero j); [lia|done].
  - exists (S (S (S fuel))), s'. split; [|done].
    by rewrite (run_turn _ _ _ Hlt Hs), (run_turn _ _ _ Hlt1 Hs1), (run_turn _ _ _ Hlt2 Hs2).
Qed.

Lemma runaway_execute s0 :
  0 < length (memory s0) <= MEMORY_LIMIT ->
  exists fuel s',
    execute fuel (loadCode "+[>+]" s0) = Some (Failed MemoryLimitExceeded s') /\
    loop_stack s' = [1] /\ memptr s' = length (memory s') /\
    length (memory s') = MEMORY_LIMIT.
Proof.
  intros Hmem.
  set (p0 := prepare (loadCode "+[>+]" s0)).
  assert (H0 : memory p0 !! 0 = Some 0%Z)
    by (unfold p0; simpl_state; apply lookup_replicate_2; lia).
  (* [+] then [[] on a cell that holds 1 *)
  pose proof (step_dispatch p0 "+" eq_refl) as Hs0.
  rewrite exec_plus in Hs0. change (memptr p0) with 0 in Hs0. rewrite H0 in Hs0.
  change ((0 + 1) mod 256)%Z with 1%Z in Hs0.
  match type of Hs0 with _ = Next ?s => set (p1 := s) in Hs0 end.
  pose proof (step_dispatch p1 "[" eq_refl) as Hs1.
  rewrite exec_open in Hs1. change (memptr p1) with 0 in Hs1.
  assert (H1 : memory p1 !! 0 = Some 1%Z).
  { unfold p1. simpl_state. apply list_lookup_insert_eq.
    unfold p0, prepare. simpl_state. rewrite length_replicate. lia. }
  rewrite H1 in Hs1. simpl in Hs1.
  match type of Hs1 with _ = Next ?s => set (p2 := s) in Hs1 end.
  assert (Hp2 : memptr p2 = 0 /\ length (memory p2) = length (memory s0) /\
                 memory p2 = <[0 := 1%Z]> (replicate (length (memory s0)) 0%Z)).
  { unfold p2, p1, p0. simpl_state. by rewrite length_insert, length_replicate. }
  destruct Hp2 as (Hmp2 & Hlen2 & Hmem2).
  destruct (runaway_loop (MEMORY_LIMIT - 1) p2) as (fuel & s' & Hrun & Hend).
  - reflexivity.
  - reflexivity.
  - reflexivity.
  - lia.
  - lia.
  - intros j w Hj Hjw. rewrite Hmem2, list_lookup_insert_ne in Hjw by lia.
    by apply lookup_replicate_1 in Hjw as [-> _].
  - exists (S (S fuel)), s'. split; [|done].
    rewrite (execute_valid _ (loadCode "+[>+]" s0) eq_refl). fold p0.
    rewrite (run_turn _ p0 p1), (run_turn _ p1 p2); try done; simpl; lia.
Qed.

(** ** The data pointer *)

(** C6, as the code has it.  In every state from which the dispatch loop
    of [execute] goes on or completes, the data pointer is within the tape,
    and a turn that does not abort keeps it there; the one turn that aborts,
    [>] on the last cell of a full tape, leaves the data pointer equal to
    the length of the tape.  [<] with the data pointer at 0 changes nothing
    but the instruction pointer, and the programs [<<<+] and [+] end in
    states that agree on every field but the program and the instruction
    pointer. *)
Theorem data_pointer_stays_on_tape (s0 s : BrainfuckInterpreter) :
  validateBrackets s0 = true -> 0 < length (memory s0) ->
  reaches (prepare s0) s ->
  memptr s < length (memory s) /\
  (codeptr s < length (code s) ->
     (exists s', step s = Next s' /\ memptr s' < length (memory s')) \/
     (exists s', step s = Abort MemoryLimitExceeded s' /\
                 code s !! codeptr s = Some ">"%char /\
                 memptr s' = length (memory s'))) /\
  (code s !! codeptr s = Some "<"%char -> memptr s = 0 ->
     step s = Next (set_codeptr (S (codeptr s)) s)) /\
  (forall fuel, 4 <= fuel ->
     exists s1 s2,
       execute fuel (loadCode "<<<+" s0) = Some (Completed s1) /\
       execute fuel (loadCode "+" s0) = Some (Completed s2) /\
       machine_state s1 = machine_state s2 /\
       memptr s1 = 0 /\ cout s1 = cout s0).
Proof.
  intros Hv Hm Hr. pose proof (reaches_inv _ _ Hv Hm Hr) as HI.
  split; [exact (inv_memptr _ _ HI)|]. split; [|split].
  - intros Hlt.
    destruct (step_progress _ _ HI Hlt) as [(s' & Hs & HI')|(Hc & Hend & _ & Hs)].
    + left. exists s'. split; [done | exact (inv_memptr _ _ HI')].
    + right. eexists. split; [exact Hs|]. split; [done|]. simpl_state. done.
  - intros Hc H0. rewrite (step_dispatch _ _ Hc), exec_left, H0. reflexivity.
  - intros fuel Hfuel.
    set (p := prepare (loadCode "<<<+" s0)). set (q := prepare (loadCode "+" s0)).
    assert (Hcell : forall t, memory t = replicate (length (memory s0)) 0%Z ->
              memptr t = 0 -> memory t !! memptr t = Some 0%Z).
    { intros t -> ->. by apply lookup_replicate_2. }
    assert (Hleft : forall t, code t !! codeptr t = Some "<"%char -> memptr t = 0 ->
              step t = Next (set_codeptr (S (codeptr t)) t)).
    { intros t Hc H0. by rewrite (step_dispatch _ _ Hc), exec_left, H0. }
    assert (Hplus : forall t, code t !! codeptr t = Some "+"%char ->
              memory t = replicate (length (memory s0)) 0%Z -> memptr t = 0 ->
              step t = Next (set_codeptr (S (codeptr t))
                               (set_memory (<[0 := 1%Z]> (memory t)) t))).
    { intros t Hc Hmem H0. rewrite (step_dispatch _ _ Hc), exec_plus.
      rewrite (Hcell t Hmem H0), H0. reflexivity. }
    set (p1 := set_codeptr 1 p). set (p2 := set_codeptr 2 p1).
    set (p3 := set_codeptr 3 p2).
    set (p4 := set_codeptr 4 (set_memory (<[0 := 1%Z]> (memory p3)) p3)).
    set (q1 := set_codeptr 1 (set_memory (<[0 := 1%Z]> (memory q)) q)).
    assert (H1 : step p = Next p1) by (by apply (Hleft p)).
    assert (H2 : step p1 = Next p2) by (by apply (Hleft p1)).
    assert (H3 : step p2 = Next p3) by (by apply (Hleft p2)).
    assert (H4 : step p3 = Next p4) by (by apply (Hplus p3)).
    assert (H5 : step q = Next q1) by (by apply (Hplus q)).
    exists p4, q1. split; [|split].
    + rewrite (execute_valid _ (loadCode "<<<+" s0) eq_refl). fold p.
      apply (run_more_fuel 4); [done|].
      rewrite (run_turn 3 p p1), (run_turn 2 p1 p2), (run_turn 1 p2 p3),
        (run_turn 0 p3 p4); try done; try (by apply Nat.ltb_lt).
    + rewrite (execute_valid _ (loadCode "+" s0) eq_refl). fold q.
      apply (run_more_fuel 1); [lia|].
      rewrite (run_turn 0 q q1); try done; try (by apply Nat.ltb_lt).
    + done.
Qed.

Lemma data_pointer_stays_on_tape_witness :
  memptr (after 3 (prepare (loadCode ">><" (new_interp []))))
    < length (memory (after 3 (prepare (loadCode ">><" (new_interp []))))) /\
  step (prepare (loadCode "<+" (new_interp [])))
    = Next (set_codeptr 1 (prepare (loadCode "<+" (new_interp [])))).
Proof.
  split.
  - apply (data_pointer_stays_on_tape (loadCode ">><" (new_interp []))).
    + reflexivity.
    + apply new_interp_cells.
    + apply going_reaches. vm_compute. reflexivity.
  - destruct (data_pointer_stays_on_tape (loadCode "<+" (new_interp []))
                (prepare (loadCode "<+" (new_interp [])))) as (_ & _ & H & _).
    + reflexivity.
    + apply new_interp_cells.
    + apply reaches_here.
    + apply H; reflexivity.
Defined.

(** The claim C6 as it is written fails on the run of [+[>+]]: the run
    ends with the data pointer one past the last cell of the tape. *)
Lemma runaway_leaves_pointer_past_tape :
  exists fuel s',
    execute fuel (loadCode "+[>+]" (new_interp [])) = Some (Failed MemoryLimitExceeded s') /\
    ~ memptr s' < length (memory s').
Proof.
  destruct (runaway_execute (new_interp [])) as (fuel & s' & Hrun & _ & Hmp & _).
  - apply (new_interp_cells "").
  - exists fuel, s'. split; [exact Hrun | lia].
Qed.

(** ** The loop stack around a run *)

(** C5, as the code has it.  The loop stack is empty when the dispatch loop
    starts and when a run completes.  A run that fails the pre-pass returns
    the engine as it was, loop stack included; a run that stops on the
    memory limit leaves on the stack the [[] of the loops that are open at
    the failing [>].  No run ends in any other way. *)
Theorem loop_stack_around_run (s0 : BrainfuckInterpreter) (fuel : nat) (r : run_result) :
  0 < length (memory s0) ->
  execute fuel s0 = Some r ->
  loop_stack (prepare s0) = [] /\
  match r with
  | Completed s => loop_stack s = []
  | Failed UnmatchedBrackets s => s = s0
  | Failed MemoryLimitExceeded s =>
      loop_stack s = opens (code s0) (codeptr s) /\
      code s0 !! codeptr s = Some ">"%char
  | Failed _ _ => False
  | Undefined => False
  end.
Proof.
  intros Hm Hrun. split; [reflexivity|]. unfold execute in Hrun.
  destruct (validateBrackets s0) eqn:Hv; simpl in Hrun; [|by injection Hrun as <-].
  destruct (run_reaches _ _ _ Hrun) as (s1 & Hr & Hend).
  pose proof (reaches_inv _ _ Hv Hm Hr) as HI.
  destruct Hend as [[Hge ->]|[Hlt Hend]].
  - rewrite (inv_stack _ _ HI).
    replace (codeptr s1) with (length (code s1))
      by (pose proof (inv_codeptr _ _ HI); lia).
    apply opens_end. exact (inv_valid _ _ HI).
  - destruct (step_progress _ _ HI Hlt) as [(s' & Hs & _)|(Hc & _ & _ & Hs)];
      destruct Hend as [(why & s2 & Hs2 & ->)|[Hs2 ->]]; try congruence.
    rewrite Hs in Hs2. injection Hs2 as <- <-. simpl_state.
    rewrite <- (inv_code _ _ HI). split; [exact (inv_stack _ _ HI) | exact Hc].
Qed.

Lemma loop_stack_around_run_witness :
  execute 10 (loadCode "+++[-]" (new_interp []))
    = Some (Completed (after 10 (prepare (loadCode "+++[-]" (new_interp []))))) /\
  loop_stack (after 10 (prepare (loadCode "+++[-]" (new_interp [])))) = [].
Proof.
  assert (Hrun : execute 10 (loadCode "+++[-]" (new_interp []))
                 = Some (Completed (after 10 (prepare (loadCode "+++[-]" (new_interp [])))))).
  { rewrite (execute_valid _ (loadCode "+++[-]" (new_interp [])) eq_refl).
    rewrite (run_after 10 _ 0) by (vm_compute; reflexivity).
    apply run_done. vm_compute. lia. }
  split; [exact Hrun|].
  apply (loop_stack_around_run _ _ _ (proj1 (new_interp_cells "+++[-]" [])) Hrun).
Defined.

(** The claim C5 as it is written fails on the run of [+[>+]]: the run
    ends on the memory limit with the loop still on the stack. *)
Lemma runaway_leaves_loop_on_stack :
  exists fuel s',
    execute fuel (loadCode "+[>+]" (new_interp [])) = Some (Failed MemoryLimitExceeded s') /\
    loop_stack s' <> [].
Proof.
  destruct (runaway_execute (new_interp [])) as (fuel & s' & Hrun & Hls & _).
  - apply (new_interp_cells "").
  - exists fuel, s'. split; [exact Hrun | by rewrite Hls].
Qed.

(** * Beyond the claims *)

(** ** loadCode *)

Lemma is_instruction_cases c :
  is_instruction c = true <->
  c = ">"%char \/ c = "<"%char \/ c = "+"%char \/ c = "-"%char \/
  c = "."%char \/ c = ","%char \/ c = "["%char \/ c = "]"%char.
Proof.
  split.
  - intros H. destruct (instruction_cases c) as [?|[?|[?|[?|[?|[?|[?|[?|Hn]]]]]]]];
      try tauto. congruence.
  - intros [->|[->|[->|[->|[->|[->|[->| ->]]]]]]]; reflexivity.
Qed.

Lemma filter_code_app p q : filter_code (p ++ q) = filter_code p ++ filter_code q.
Proof.
  induction p as [|c p IH]; [done|]. simpl.
  destruct (is_instruction c); simpl; by rewrite IH.
Qed.

Lemma filter_code_elem c p :
  c ∈ filter_code p <-> c ∈ p /\ is_instruction c = true.
Proof.
  induction p as [|x p IH]; simpl.
  - split; [intros H; by apply elem_of_nil in H | intros [H _]; by apply elem_of_nil in H].
  - destruct (is_instruction x) eqn:Hx; rewrite ?elem_of_cons, IH, ?elem_of_cons.
    + split; [intros [->|[? ?]]; tauto | tauto].
    + split; [tauto|]. intros [[->|?] ?]; [congruence | tauto].
Qed.

Lemma filter_code_sublist p : filter_code p `sublist_of` p.
Proof.
  induction p as [|x p IH]; simpl; [constructor|].
  destruct (is_instruction x); by constructor.
Qed.

Lemma filter_code_clean p :
  Forall (fun c => is_instruction c = true) p -> filter_code p = p.
Proof.
  induction 1 as [|c p Hc _ IH]; [done|]. simpl. by rewrite Hc, IH.
Qed.

Lemma filter_code_all p : Forall (fun c => is_instruction c = true) (filter_code p).
Proof. apply Forall_forall. intros c Hc. by apply filter_code_elem in Hc as [_ ?]. Qed.

(** X1.  The program that [loadCode] installs is made of the eight
    instruction characters only; it is the text with characters deleted,
    in the order of the text; and a character is in it exactly when it is
    an instruction character of the text. *)
Theorem loadCode_keeps_the_instructions (program : string) (s : BrainfuckInterpreter) :
  Forall (fun c => c = ">"%char \/ c = "<"%char \/ c = "+"%char \/ c = "-"%char \/
                   c = "."%char \/ c = ","%char \/ c = "["%char \/ c = "]"%char)
         (code (loadCode program s)) /\
  code (loadCode program s) `sublist_of` list_ascii_of_string program /\
  (forall c, c ∈ code (loadCode program s) <->
             c ∈ list_ascii_of_string program /\ is_instruction c = true).
Proof.
  simpl_state. split; [|split].
  - eapply Forall_impl; [apply filter_code_all|]. intros c. apply is_instruction_cases.
  - apply filter_code_sublist.
  - intros c. apply filter_code_elem.
Qed.

(** X2.  Loading is insensitive to what it drops: the program loaded from
    two texts put end to end is the two loaded programs put end to end;
    loading the text of a loaded program gives the same program again; and
    a text made of instruction characters only is loaded as it is. *)
Theorem loadCode_composes (p q : string) (s : BrainfuckInterpreter) :
  code (loadCode (p ++ q) s) = code (loadCode p s) ++ code (loadCode q s) /\
  code (loadCode (string_of_list_ascii (code (loadCode p s))) s) = code (loadCode p s) /\
  (Forall (fun c => is_instruction c = true) (list_ascii_of_string p) ->
   code (loadCode p s) = list_ascii_of_string p).
Proof.
  simpl_state. split; [|split].
  - rewrite <- filter_code_app. f_equal.
    induction p as [|c p IH]; [done|]. simpl. by rewrite IH.
  - rewrite list_ascii_of_string_of_list_ascii.
    apply filter_code_clean, filter_code_all.
  - apply filter_code_clean.
Qed.

Lemma loadCode_composes_witness :
  code (loadCode "+-[]" (new_interp [])) = list_ascii_of_string "+-[]".
Proof.
  destruct (loadCode_composes "+-[]" "" (new_interp [])) as (_ & _ & H).
  apply H. repeat constructor.
Defined.

(** ** What a turn leaves alone *)

Lemma step_frame s s' :
  step s = Next s' ->
  code s' = code s /\ debug_mode s' = debug_mode s /\
  length (memory s) <= length (memory s') <= Nat.max (length (memory s)) MEMORY_LIMIT /\
  (Forall cell_ok (memory s) -> Forall cell_ok (memory s')) /\
  (cout s' = cout s \/
   (code s !! codeptr s = Some "."%char /\
    exists v, memory s !! memptr s = Some v /\ cout s' = cout s ++ [v])) /\
  (cin s' = cin s \/
   (code s !! codeptr s = Some ","%char /\ cin s' = tail (cin s))) /\
  (forall c, code s !! codeptr s = Some c -> is_bracket c = false ->
     codeptr s' = S (codeptr s) /\ loop_stack s' = loop_stack s).
Proof.
  unfold step. destruct (code s !! codeptr s) as [c|] eqn:Hc; [|done].
  destruct (instruction_cases c)
    as [->|[->|[->|[->|[->|[->|[->|[->|Hother]]]]]]]].
  - rewrite exec_right.
    destruct (Nat.leb_spec (length (memory s)) (S (memptr s))) as [Hend|Hin];
      [destruct (Nat.leb_spec MEMORY_LIMIT (length (memory s))) as [Hfull|Hroom]|];
      intros [= <-]; simpl_state; rewrite ?length_resize;
      frame_done.
    intros Hcells. apply Forall_resize; [unfold cell_ok; lia | done].
  - rewrite exec_left. destruct (0 <? memptr s); intros [= <-]; simpl_state;
      frame_done.
  - rewrite exec_plus. destruct (memory s !! memptr s) as [v|]; [|done].
    intros [= <-]. simpl_state. rewrite length_insert.
    frame_done.
    intros Hcells. apply Forall_insert; [done | apply cell_ok_mod].
  - rewrite exec_minus. destruct (memory s !! memptr s) as [v|]; [|done].
    intros [= <-]. simpl_state. rewrite length_insert.
    frame_done.
    intros Hcells. apply Forall_insert; [done | apply cell_ok_mod].
  - rewrite exec_dot. destruct (memory s !! memptr s) as [v|] eqn:Hv; [|done].
    intros [= <-]. simpl_state.
    frame_done.
    right. split; [done|]. by exists v.
  - rewrite exec_comma. destruct (cin s) as [|b rest] eqn:Hin; cbn [cin_get];
      (destruct (memory s !! memptr s) as [v|]; [|done]);
      intros [= <-]; simpl_state; rewrite length_insert;
      frame_done;
      intros Hcells; (apply Forall_insert; [done|]);
      [apply (store_input_ok EOF true) | apply (store_input_ok b false)].
  - rewrite exec_open. destruct (memory s !! memptr s) as [v|]; [|done].
    destruct (v =? 0)%Z.
    + destruct (scan_loop _ _ _) as [pos bal]. destruct (0 <? bal)%Z; [done|].
      intros [= <-]. simpl_state. frame_done.
    + intros [= <-]. simpl_state. frame_done.
  - rewrite exec_close. destruct (loop_stack s) as [|top below]; [done|].
    destruct (memory s !! memptr s) as [v|]; [|done].
    destruct (v =? 0)%Z; intros [= <-]; simpl_state;
      frame_done.
  - rewrite (exec_other _ _ Hother). intros [= <-]. simpl_state.
    frame_done.
Qed.

Lemma step_abort_frame s why s' :
  step s = Abort why s' ->
  code s' = code s /\ memory s' = memory s /\ cin s' = cin s /\ cout s' = cout s /\
  loop_stack s' = loop_stack s /\ codeptr s' = codeptr s.
Proof.
  unfold step. destruct (code s !! codeptr s) as [c|] eqn:Hc; [|done].
  destruct (instruction_cases c)
    as [->|[->|[->|[->|[->|[->|[->|[->|Hother]]]]]]]].
  - rewrite exec_right.
    destruct (length (memory s) <=? S (memptr s));
      [destruct (MEMORY_LIMIT <=? length (memory s))|]; try done.
    by intros [= <- <-].
  - rewrite exec_left. by destruct (0 <? memptr s).
  - rewrite exec_plus. by destruct (memory s !! memptr s).
  - rewrite exec_minus. by destruct (memory s !! memptr s).
  - rewrite exec_dot. by destruct (memory s !! memptr s).
  - rewrite exec_comma. destruct (cin_get (cin s)) as [[? ?] ?].
    by destruct (memory s !! memptr s).
  - rewrite exec_open. destruct (memory s !! memptr s) as [v|]; [|done].
    destruct (v =? 0)%Z; [|done].
    destruct (scan_loop _ _ _) as [pos bal]. destruct (0 <? bal)%Z; [|done].
    by intros [= <- <-].
  - rewrite exec_close.
    destruct (loop_stack s) as [|top below] eqn:Hls; [by intros [= <- <-]|].
    destruct (memory s !! memptr s) as [v|]; [|done]. by destruct (v =? 0)%Z.
  - by rewrite (exec_other _ _ Hother).
Qed.

Lemma suffix_tail {A} (l : list A) : tail l `suffix_of` l.
Proof. destruct l; [done|]. by apply suffix_cons_r. Qed.

Lemma reaches_frame s s' :
  reaches s s' ->
  code s' = code s /\
  length (memory s) <= length (memory s') <= Nat.max (length (memory s)) MEMORY_LIMIT /\
  (Forall cell_ok (memory s) -> Forall cell_ok (memory s')) /\
  cout s `prefix_of` cout s' /\ cin s' `suffix_of` cin s /\
  ("."%char ∉ code s -> cout s' = cout s) /\
  (","%char ∉ code s -> cin s' = cin s).
Proof.
  induction 1 as [|s1 s2 Hr IH Hlt Hs]; [repeat split; auto; lia|].
  destruct IH as (Hcode & Hlen & Hcells & Hout & Hin & Hnodot & Hnocomma).
  destruct (step_frame _ _ Hs) as (Hcode' & _ & Hlen' & Hcells' & Hout' & Hin' & _).
  split; [congruence|]. split; [lia|]. split; [auto|].
  split; [|split; [|split]].
  - etrans; [exact Hout|]. destruct Hout' as [->|(_ & v & _ & ->)]; [done|].
    by apply prefix_app_r.
  - etrans; [|exact Hin]. destruct Hin' as [->|(_ & ->)]; [done | apply suffix_tail].
  - intros Hno. rewrite <- (Hnodot Hno). destruct Hout' as [->|(Hdot & _)]; [done|].
    exfalso. apply Hno. rewrite <- Hcode. by eapply list_elem_of_lookup_2.
  - intros Hno. rewrite <- (Hnocomma Hno). destruct Hin' as [->|(Hcomma & _)]; [done|].
    exfalso. apply Hno. rewrite <- Hcode. by eapply list_elem_of_lookup_2.
Qed.

(** Where the state of a result comes from: the engine itself when the
    pre-pass fails, and otherwise a state of the loop, or the state that
    the aborting turn of such a state leaves. *)
Lemma execute_result fuel s0 r s :
  execute fuel s0 = Some r -> result_state r = Some s ->
  (validateBrackets s0 = false /\ s = s0) \/
  (validateBrackets s0 = true /\
   exists s1, reaches (prepare s0) s1 /\
     (s = s1 \/ exists why, step s1 = Abort why s)).
Proof.
  unfold execute. destruct (validateBrackets s0); simpl.
  - intros Hrun Hres. right. split; [done|].
    destruct (run_reaches _ _ _ Hrun) as (s1 & Hr & Hend). exists s1. split; [done|].
    destruct Hend as [[_ ->]|[_ [(why & s2 & Hs & ->)|[_ ->]]]]; simpl in Hres;
      [left; congruence | right; exists why; congruence | done].
  - intros [= <-] [= <-]. by left.
Qed.

Lemma execute_after n s0 :
  validateBrackets s0 = true -> going n (prepare s0) = true ->
  (length (code s0) <=? codeptr (after n (prepare s0))) = true ->
  execute n s0 = Some (Completed (after n (prepare s0))).
Proof.
  intros Hv Hgo Hend. rewrite (execute_valid _ _ Hv).
  replace n with (n + 0) at 1 by lia. rewrite (run_after _ _ _ Hgo).
  apply run_done. apply Nat.leb_le in Hend.
  destruct (reaches_frame _ _ (going_reaches _ _ Hgo)) as [-> _]. exact Hend.
Qed.

(** ** What [execute] keeps *)

(** X3.  Whatever [execute] returns, the state it hands back has the
    program it was given, a tape that is no shorter than before and no
    longer than 1,000,000 cells (or than it already was), and, when the
    pre-pass succeeded, cells that are all bytes. *)
Theorem execute_keeps_program_and_tape
    (s0 : BrainfuckInterpreter) (fuel : nat) (r : run_result) (s : BrainfuckInterpreter) :
  execute fuel s0 = Some r -> result_state r = Some s ->
  code s = code s0 /\
  length (memory s0) <= length (memory s) /\
  length (memory s) <= Nat.max (length (memory s0)) MEMORY_LIMIT /\
  (validateBrackets s0 = true -> Forall cell_ok (memory s)).
Proof.
  intros Hrun Hres.
  destruct (execute_result _ _ _ _ Hrun Hres) as [[Hv ->]|(Hv & s1 & Hr & Hs)].
  - repeat split; [lia | lia | congruence].
  - destruct (reaches_frame _ _ Hr) as (Hcode & Hlen & Hcells & _).
    simpl_state. rewrite length_replicate in Hlen.
    assert (Hok : Forall cell_ok (memory s1))
      by (apply Hcells, Forall_replicate; unfold cell_ok; lia).
    destruct Hs as [->|[why Hs]]; [repeat split; auto; lia|].
    destruct (step_abort_frame _ _ _ Hs) as (-> & -> & _).
    repeat split; auto; lia.
Qed.

Lemma execute_keeps_program_and_tape_witness :
  code (after 10 (prepare (loadCode "+++[-]" (new_interp []))))
    = code (loadCode "+++[-]" (new_interp [])) /\
  Forall cell_ok (memory (after 10 (prepare (loadCode "+++[-]" (new_interp []))))).
Proof.
  assert (Hrun := execute_after 10 (loadCode "+++[-]" (new_interp [])) eq_refl).
  specialize (Hrun ltac:(vm_compute; reflexivity) ltac:(vm_compute; reflexivity)).
  destruct (execute_keeps_program_and_tape _ _ _ _ Hrun eq_refl) as (H1 & _ & _ & H2).
  split; [exact H1 | by apply H2].
Defined.

(** X4.  [execute] only adds to the output and only takes from the front
    of the input: the bytes written by [.] before the call are a prefix of
    those written after it, and the input left is a suffix of the input
    before.  A program without [.] writes no such byte (the text of an
    error message is not part of [cout] in this model) and a program
    without [,] reads nothing. *)
Theorem execute_appends_output_and_consumes_input
    (s0 : BrainfuckInterpreter) (fuel : nat) (r : run_result) (s : BrainfuckInterpreter) :
  execute fuel s0 = Some r -> result_state r = Some s ->
  cout s0 `prefix_of` cout s /\ cin s `suffix_of` cin s0 /\
  ("."%char ∉ code s0 -> cout s = cout s0) /\
  (","%char ∉ code s0 -> cin s = cin s0).
Proof.
  intros Hrun Hres.
  destruct (execute_result _ _ _ _ Hrun Hres) as [[Hv ->]|(Hv & s1 & Hr & Hs)]; [done|].
  destruct (reaches_frame _ _ Hr) as (_ & _ & _ & Hout & Hin & Hnodot & Hnocomma).
  simpl_state.
  destruct Hs as [->|[why Hs]]; [done|].
  destruct (step_abort_frame _ _ _ Hs) as (_ & _ & -> & -> & _). done.
Qed.

Lemma execute_appends_output_and_consumes_input_witness :
  cout (after 2 (prepare (loadCode ",." (new_interp [65%Z; 66%Z])))) = [65%Z] /\
  cin (after 3 (prepare (loadCode "+++" (new_interp [65%Z; 66%Z])))) = [65%Z; 66%Z].
Proof.
  split.
  - vm_compute. reflexivity.
  - assert (Hrun := execute_after 3 (loadCode "+++" (new_interp [65%Z; 66%Z])) eq_refl).
    specialize (Hrun ltac:(vm_compute; reflexivity) ltac:(vm_compute; reflexivity)).
    destruct (execute_appends_output_and_consumes_input _ _ _ _ Hrun eq_refl)
      as (_ & _ & _ & H).
    apply H. vm_compute. intros H'. repeat (apply elem_of_cons in H' as [H'|H']; [discriminate|]).
    by apply elem_of_nil in H'.
Defined.

(** ** Programs without loops *)

Lemma validate_straight cs : forall b, (0 <= b)%Z ->
  Forall (fun c => is_bracket c = false) cs -> validate_loop b cs = (b =? 0)%Z.
Proof.
  induction cs as [|c cs IH]; intros b Hb Hcs; [done|].
  apply Forall_cons in Hcs as [Hc Hcs]. simpl.
  assert (bump c b = b) as ->.
  { unfold is_bracket in Hc. apply orb_false_elim in Hc as [H1 H2].
    unfold bump. by rewrite H1, H2. }
  destruct (Z.ltb_spec b 0); [lia | by apply IH].
Qed.

Lemma run_straight s0 n : forall s,
  Inv s0 s -> Forall (fun c => is_bracket c = false) (code s) ->
  length (code s) - codeptr s <= n ->
  exists r s', run n s = Some r /\ (r = Completed s' \/ r = Failed MemoryLimitExceeded s').
Proof.
  induction n as [|n IH]; intros s HI Hcs Hn.
  { exists (Completed s), s. split; [apply run_done; lia | by left]. }
  destruct (decide (codeptr s < length (code s))) as [Hlt|Hge];
    [|exists (Completed s), s; split; [apply run_done; lia | by left]].
  destruct (step_progress _ _ HI Hlt) as [(s' & Hs & HI')|(_ & _ & _ & Hs)].
  - destruct (lookup_lt_is_Some_2 _ _ Hlt) as [c Hc].
    destruct (step_frame _ _ Hs) as (Hcode & _ & _ & _ & _ & _ & Hadv).
    destruct (Hadv c Hc) as [Hcp _].
    { eapply Forall_lookup_1 in Hcs; [exact Hcs | exact Hc]. }
    destruct (IH s' HI') as (r & s2 & Hrun & Hr).
    + by rewrite Hcode.
    + rewrite Hcode, Hcp. lia.
    + exists r, s2. split; [|done]. by rewrite (run_turn _ _ _ Hlt Hs).
  - eexists _, _. split; [by apply run_abort | by right].
Qed.

(** X5.  A program without brackets always terminates: as many turns as
    it has instructions are enough for [execute] to return, and it returns
    either success or the memory-limit failure. *)
Theorem straight_program_terminates (s0 : BrainfuckInterpreter) :
  0 < length (memory s0) ->
  Forall (fun c => is_bracket c = false) (code s0) ->
  exists r s, execute (length (code s0)) s0 = Some r /\
              (r = Completed s \/ r = Failed MemoryLimitExceeded s).
Proof.
  intros Hm Hcs.
  assert (Hv : validateBrackets s0 = true) by (by apply validate_straight).
  rewrite (execute_valid _ _ Hv).
  apply (run_straight s0); [by apply prepare_inv | done | simpl_state; lia].
Qed.

Lemma straight_program_terminates_witness :
  exists r s, execute 4 (loadCode "+>-." (new_interp [])) = Some r /\
              (r = Completed s \/ r = Failed MemoryLimitExceeded s).
Proof.
  apply (straight_program_terminates (loadCode "+>-." (new_interp []))).
  - apply new_interp_cells.
  - repeat constructor.
Defined.

(** ** Skipping a loop *)

(** A forward scan that ends with its balance at 0 has just read a []]. *)
Lemma scan_loop_last rest : forall pos0 b pos,
  (0 < b)%Z -> scan_loop rest pos0 b = (pos, 0%Z) ->
  pos0 < pos /\ rest !! (pos - pos0 - 1) = Some "]"%char.
Proof.
  induction rest as [|c rest IH]; intros pos0 b pos Hb; simpl.
  - intros [= <- ->]. lia.
  - destruct (Z.ltb_spec 0 b) as [_|?]; [|lia]. rewrite bump_weight.
    destruct (Z.ltb_spec 0 (b + weight c)) as [Hpos|Hzero].
    + intros Hscan. destruct (IH _ _ _ Hpos Hscan) as [Hlt Hlast].
      split; [lia|]. replace (pos - pos0 - 1) with (S (pos - S pos0 - 1)) by lia.
      exact Hlast.
    + assert (Hstop : scan_loop rest (S pos0) (b + weight c) = (S pos0, (b + weight c)%Z)).
      { destruct rest; simpl; [done|].
        by destruct (Z.ltb_spec 0 (b + weight c)) as [?|_]; [lia|]. }
      rewrite Hstop. intros [= <- Hw]. split; [lia|].
      replace (S pos0 - pos0 - 1) with 0 by lia. simpl. f_equal.
      revert Hw. unfold weight.
      destruct (Ascii.eqb_spec c "["); [lia|].
      destruct (Ascii.eqb_spec c "]"); [done|lia].
Qed.

(** What a forward scan has counted: its balance is the one it started
    with plus the bracket balance of what it has read, and it was positive
    before every instruction that it read. *)
Lemma scan_loop_balance rest : forall pos0 b pos bal,
  (0 < b)%Z -> scan_loop rest pos0 b = (pos, bal) ->
  pos0 <= pos /\ bal = (b + balance (take (pos - pos0) rest))%Z /\
  forall j, j < pos - pos0 -> (0 < b + balance (take j rest))%Z.
Proof.
  induction rest as [|c rest IH]; intros pos0 b pos bal Hb; simpl.
  - intros [= <- <-]. rewrite take_nil. simpl. split; [lia|]. split; [lia|].
    intros j Hj. lia.
  - destruct (Z.ltb_spec 0 b) as [_|?]; [|lia]. rewrite bump_weight.
    destruct (Z.ltb_spec 0 (b + weight c)) as [Hpos|Hzero].
    + intros Hscan. destruct (IH _ _ _ _ Hpos Hscan) as (Hle & Hbal & Hbefore).
      split; [lia|]. replace (pos - pos0) with (S (pos - S pos0)) by lia. split.
      * cbn [take balance]. lia.
      * intros [|j] Hj; cbn [take balance]; [lia|].
        specialize (Hbefore j ltac:(lia)). lia.
    + assert (Hstop : scan_loop rest (S pos0) (b + weight c) = (S pos0, (b + weight c)%Z)).
      { destruct rest; simpl; [done|].
        by destruct (Z.ltb_spec 0 (b + weight c)) as [?|_]; [lia|]. }
      rewrite Hstop. intros [= <- <-].
      replace (S pos0 - pos0) with 1 by lia. split; [lia|]. split.
      * cbn [take balance]. rewrite take_0. cbn [balance]. lia.
      * intros [|j] Hj; [rewrite take_0; cbn [balance]; lia | lia].
Qed.

(** A forward scan from a [[] that ends with balance 0 ends one past the
    []] that closes it. *)
Lemma scan_closes_at (cs : list ascii) (q pos : nat) :
  cs !! q = Some "["%char ->
  scan_loop (drop (S q) cs) (S q) 1 = (pos, 0%Z) ->
  S q < pos /\ closes_at cs q (pos - 1).
Proof.
  intros Hq Hscan.
  destruct (scan_loop_last _ _ 1%Z _ ltac:(lia) Hscan) as [Hlt Hlast].
  destruct (scan_loop_balance _ _ 1%Z _ _ ltac:(lia) Hscan) as (_ & Hbal & Hbefore).
  rewrite lookup_drop in Hlast.
  replace (S q + (pos - S q - 1)) with (pos - 1) in Hlast by lia.
  split; [done|]. unfold closes_at. rewrite (drop_S _ _ _ Hq).
  split; [lia|]. split; [done|]. split; [done|]. split.
  - replace (S (pos - 1) - q) with (S (pos - S q)) by lia.
    cbn [take balance]. change (weight "[") with 1%Z. lia.
  - intros j Hj. replace (S j - q) with (S (j - q)) by lia.
    cbn [take balance]. change (weight "[") with 1%Z.
    apply Hbefore. lia.
Qed.

(** A [[] is closed by one []] only. *)
Lemma closes_at_unique (cs : list ascii) (q m m' : nat) :
  closes_at cs q m -> closes_at cs q m' -> m = m'.
Proof.
  intros (Hlt & _ & _ & Hzero & Hpos) (Hlt' & _ & _ & Hzero' & Hpos').
  destruct (Nat.lt_total m m') as [H|[H|H]]; [|done|].
  - specialize (Hpos' m ltac:(lia)). lia.
  - specialize (Hpos m' ltac:(lia)). lia.
Qed.

(** The brackets that the scan of the source pairs are the brackets that
    the balance pairs. *)
Lemma matching_closes_at (cs : list ascii) (q p : nat) :
  matching cs q p -> closes_at cs q p.
Proof.
  intros (_ & Hq & _ & Hscan). destruct (scan_closes_at _ _ _ Hq Hscan) as [_ H].
  by replace (S p - 1) with p in H by lia.
Qed.

(** X6.  In a run of [execute], a [[] met on a zero cell moves the
    instruction pointer just past the []] that closes it, in one turn, and
    changes nothing else: the loop body is skipped.  The []] that closes
    the [[] at [q] is given by the bracket balance alone ([closes_at]): it
    is the first position after [q] where the balance counted from [q] is
    back to 0. *)
Theorem open_bracket_skips_loop (s0 s : BrainfuckInterpreter) :
  validateBrackets s0 = true -> 0 < length (memory s0) ->
  reaches (prepare s0) s ->
  code s !! codeptr s = Some "["%char ->
  memory s !! memptr s = Some 0%Z ->
  exists m, closes_at (code s) (codeptr s) m /\ step s = Next (set_codeptr (S m) s).
Proof.
  intros Hv Hm Hr Hc Hz. pose proof (reaches_inv _ _ Hv Hm Hr) as HI.
  rewrite (step_dispatch _ _ Hc), exec_open, Hz. simpl.
  destruct (scan_loop (drop (S (codeptr s)) (code s)) (S (codeptr s)) 1)
    as [pos bal] eqn:Hscan.
  destruct (scan_from_open _ (inv_valid _ _ HI) _ _ _ Hc Hscan) as (-> & Hpos & _).
  destruct (scan_closes_at _ _ _ Hc Hscan) as [Hlt Hclose].
  exists (pos - 1). split; [exact Hclose | reflexivity].
Qed.

Lemma open_bracket_skips_loop_witness :
  exists m, closes_at (code (loadCode "[-]+" (new_interp []))) 0 m /\
            step (prepare (loadCode "[-]+" (new_interp [])))
            = Next (set_codeptr (S m) (prepare (loadCode "[-]+" (new_interp [])))).
Proof.
  apply (open_bracket_skips_loop (loadCode "[-]+" (new_interp []))).
  - reflexivity.
  - apply new_interp_cells.
  - apply reaches_here.
  - reflexivity.
  - reflexivity.
Defined.

(** ** The depth of the loop stack *)

Lemma opens_entries cs n : forall p stack,
  length stack = n -> opens cs p = stack ->
  Forall (fun q => q < p /\ cs !! q = Some "["%char) stack.
Proof.
  induction n as [|n IH]; intros p [|q below] Hlen Hopen; try done.
  destruct (opens_top _ _ _ _ Hopen) as (Hq & Hc & Hbelow & _).
  constructor; [done|].
  eapply Forall_impl; [apply (IH q); [by injection Hlen | done]|].
  intros x [? ?]. split; [lia | done].
Qed.

(** X7.  In a run of [execute], the loop stack has as many entries as the
    brackets read so far are out of balance, so never more than there are
    instructions before the instruction pointer, however long the run;
    and each entry is the position of a [[] before the instruction
    pointer. *)
Theorem loop_stack_depth_is_balance (s0 s : BrainfuckInterpreter) :
  validateBrackets s0 = true -> 0 < length (memory s0) ->
  reaches (prepare s0) s ->
  Z.of_nat (length (loop_stack s)) = balance (take (codeptr s) (code s)) /\
  length (loop_stack s) <= codeptr s <= length (code s) /\
  Forall (fun q => q < codeptr s /\ code s !! q = Some "["%char) (loop_stack s).
Proof.
  intros Hv Hm Hr. pose proof (reaches_inv _ _ Hv Hm Hr) as HI.
  pose proof (inv_codeptr _ _ HI) as Hcp.
  assert (Hdepth : Z.of_nat (length (loop_stack s)) = balance (take (codeptr s) (code s))).
  { rewrite (inv_stack _ _ HI). apply opens_depth; [exact (inv_valid _ _ HI) | done]. }
  split; [done|]. split.
  - pose proof (balance_bounds (take (codeptr s) (code s))) as Hb.
    rewrite length_take in Hb. lia.
  - apply (opens_entries _ (length (loop_stack s))); [done|].
    symmetry. exact (inv_stack _ _ HI).
Qed.

Lemma loop_stack_depth_is_balance_witness :
  length (loop_stack (after 4 (prepare (loadCode "+[[-]]" (new_interp []))))) <= 4.
Proof.
  destruct (loop_stack_depth_is_balance (loadCode "+[[-]]" (new_interp []))
              (after 4 (prepare (loadCode "+[[-]]" (new_interp [])))))
    as (_ & H & _).
  - reflexivity.
  - apply new_interp_cells.
  - apply going_reaches. vm_compute. reflexivity.
  - replace 4 with (codeptr (after 4 (prepare (loadCode "+[[-]]" (new_interp [])))))
      at 2 by (vm_compute; reflexivity).
    apply H.
Defined.

(** ** Copying the input to the output *)

Lemma turn_dot s v :
  code s !! codeptr s = Some "."%char -> memory s !! memptr s = Some v ->
  step s = Next (set_codeptr (S (codeptr s)) (set_cout (cout s ++ [v]) s)).
Proof. intros Hc Hv. by rewrite (step_dispatch _ _ Hc), exec_dot, Hv. Qed.

Lemma turn_comma s v :
  code s !! codeptr s = Some ","%char -> memory s !! memptr s = Some v ->
  step s = Next (set_codeptr (S (codeptr s))
             (set_memory (<[memptr s := match cin s with
                                       | b :: _ => store_input b false
                                       | [] => 0%Z
                                       end]> (memory s))
                (set_cin (tail (cin s)) s))).
Proof.
  intros Hc Hv. rewrite (step_dispatch _ _ Hc), exec_comma.
  destruct (cin s); cbn [cin_get tail]; by rewrite Hv.
Qed.

Lemma turn_open_nonzero s v :
  code s !! codeptr s = Some "["%char -> memory s !! memptr s = Some v -> v <> 0%Z ->
  step s = Next (set_codeptr (S (codeptr s)) (set_loop_stack (codeptr s :: loop_stack s) s)).
Proof.
  intros Hc Hv Hnz. apply Z.eqb_neq in Hnz.
  by rewrite (step_dispatch _ _ Hc), exec_open, Hv, Hnz.
Qed.

Lemma turn_close s top below v :
  code s !! codeptr s = Some "]"%char -> loop_stack s = top :: below ->
  memory s !! memptr s = Some v ->
  step s = Next (if (v =? 0)%Z then set_codeptr (S (codeptr s)) (set_loop_stack below s)
                 else set_codeptr (S top) s).
Proof.
  intros Hc Hls Hv. rewrite (step_dispatch _ _ Hc), exec_close, Hls, Hv.
  by destruct (v =? 0)%Z.
Qed.

Section Cat.
Variable stop : list Z.
Hypothesis Hstop : stop = [] \/ exists rest, stop = 0%Z :: rest.

(** What [,] stores when the bytes to copy are followed by [stop]. *)
Lemma cat_read bs :
  Forall (fun x => (1 <= x <= 255)%Z) bs ->
  match bs ++ stop with
  | b :: _ => store_input b false
  | [] => 0%Z
  end = match bs with b :: _ => b | [] => 0%Z end /\
  tail (bs ++ stop) = tail bs ++ match bs with [] => tail stop | _ => stop end.
Proof.
  intros Hbs. destruct bs as [|b bs]; simpl.
  - destruct Hstop as [->|[rest ->]]; done.
  - apply Forall_cons in Hbs as [Hb _]. split; [|done].
    apply store_input_byte. unfold cell_ok. lia.
Qed.

(** From the [.] of [,[.,]], inside the loop, on a cell that holds the
    byte [b] just read. *)
Lemma cat_loop bs : forall s b,
  code s = cat_code -> codeptr s = 2 -> loop_stack s = [1] ->
  memory s !! memptr s = Some b -> b <> 0%Z ->
  Forall (fun x => (1 <= x <= 255)%Z) bs ->
  cin s = bs ++ stop ->
  exists s', run (3 * S (length bs)) s = Some (Completed s') /\
             cout s' = cout s ++ b :: bs /\ cin s' = tail stop /\
             loop_stack s' = [] /\ memptr s' = memptr s.
Proof.
  induction bs as [|b' bs IH]; intros s b Hcode Hcp Hls Hcell Hb Hbs Hin;
    pose proof (lookup_lt_Some _ _ _ Hcell) as Hmp;
    destruct (cat_read _ Hbs) as [Hread Hrest]; rewrite <- Hin in Hread, Hrest.
  - (* the last byte: [.], then [,] reads a 0, then []] leaves the loop *)
    set (s1 := set_codeptr 3 (set_cout (cout s ++ [b]) s)).
    set (s2 := set_codeptr 4 (set_memory (<[memptr s := 0%Z]> (memory s))
                                (set_cin (tail stop) s1))).
    set (s3 := set_codeptr 5 (set_loop_stack [] s2)).
    assert (H1 : step s = Next s1).
    { rewrite (turn_dot s b); [by rewrite Hcp | by rewrite Hcode, Hcp | done]. }
    assert (H2 : step s1 = Next s2).
    { rewrite (turn_comma s1 b); [|by unfold s1; simpl_state; rewrite Hcode | done].
      unfold s1, s2. simpl_state. by rewrite Hread, Hrest. }
    assert (H3 : step s2 = Next s3).
    { rewrite (turn_close s2 1 [] 0); [done| | |].
      - unfold s2, s1. simpl_state. by rewrite Hcode.
      - done.
      - unfold s2, s1. simpl_state. by apply list_lookup_insert_eq. }
    assert (L0 : codeptr s < length (code s)) by (rewrite Hcode, Hcp; simpl; lia).
    assert (L1 : codeptr s1 < length (code s1))
      by (unfold s1; simpl_state; rewrite Hcode; simpl; lia).
    assert (L2 : codeptr s2 < length (code s2))
      by (unfold s2, s1; simpl_state; rewrite Hcode; simpl; lia).
    exists s3. split; [|done].
    change (3 * S (length [])) with 3.
    rewrite (run_turn 2 s s1 L0 H1), (run_turn 1 s1 s2 L1 H2), (run_turn 0 s2 s3 L2 H3).
    apply run_done. unfold s3, s2, s1. simpl_state. rewrite Hcode. simpl. lia.
  - (* one more byte: [.], [,] reads it, []] goes back to [.] *)
    pose proof Hbs as Hbs'. apply Forall_cons in Hbs' as [Hb' Hbs'].
    set (s1 := set_codeptr 3 (set_cout (cout s ++ [b]) s)).
    set (s2 := set_codeptr 4 (set_memory (<[memptr s := b']> (memory s))
                                (set_cin (bs ++ stop) s1))).
    set (s3 := set_codeptr 2 s2).
    assert (H1 : step s = Next s1).
    { rewrite (turn_dot s b); [by rewrite Hcp | by rewrite Hcode, Hcp | done]. }
    assert (H2 : step s1 = Next s2).
    { rewrite (turn_comma s1 b); [|by unfold s1; simpl_state; rewrite Hcode | done].
      unfold s1, s2. simpl_state. by rewrite Hread, Hrest. }
    assert (H3 : step s2 = Next s3).
    { rewrite (turn_close s2 1 [] b'); [| | |].
      - destruct (Z.eqb_spec b' 0); [lia|done].
      - unfold s2, s1. simpl_state. by rewrite Hcode.
      - done.
      - unfold s2, s1. simpl_state. by apply list_lookup_insert_eq. }
    assert (L0 : codeptr s < length (code s)) by (rewrite Hcode, Hcp; simpl; lia).
    assert (L1 : codeptr s1 < length (code s1))
      by (unfold s1; simpl_state; rewrite Hcode; simpl; lia).
    assert (L2 : codeptr s2 < length (code s2))
      by (unfold s2, s1; simpl_state; rewrite Hcode; simpl; lia).
    destruct (IH s3 b') as (s' & Hrun & Hout & Hin' & Hls' & Hmp').
    + done.
    + done.
    + done.
    + unfold s3, s2, s1. simpl_state. by apply list_lookup_insert_eq.
    + lia.
    + done.
    + done.
    + exists s'. split; [|split; [|done]].
      * replace (3 * S (length (b' :: bs))) with (S (S (S (3 * S (length bs)))))
          by (simpl; lia).
        by rewrite (run_turn _ s s1 L0 H1), (run_turn _ s1 s2 L1 H2),
          (run_turn _ s2 s3 L2 H3).
      * rewrite Hout. unfold s3, s2, s1. simpl_state. by rewrite <- app_assoc.
Qed.

(** X8.  The program [,[.,]] copies its input to its output: when the
    input is the nonzero bytes [bs], followed by nothing or by a zero byte
    and anything, [execute] completes within [2 + 3 * length bs] turns,
    having written [bs] after what was on the output and read the input up
    to and including the zero byte. *)
Theorem cat_copies_input (s0 : BrainfuckInterpreter) (bs : list Z) :
  0 < length (memory s0) ->
  Forall (fun x => (1 <= x <= 255)%Z) bs ->
  cin s0 = bs ++ stop ->
  exists s', execute (2 + 3 * length bs) (loadCode ",[.,]" s0) = Some (Completed s') /\
             cout s' = cout s0 ++ bs /\ cin s' = tail stop /\ loop_stack s' = [].
Proof.
  intros Hm Hbs Hin. rewrite (execute_valid _ (loadCode ",[.,]" s0) eq_refl).
  set (p0 := prepare (loadCode ",[.,]" s0)).
  destruct (cat_read _ Hbs) as [Hread Hrest]. rewrite <- Hin in Hread, Hrest.
  assert (H0 : memory p0 !! 0 = Some 0%Z)
    by (unfold p0; simpl_state; by apply lookup_replicate_2).
  assert (Hlen : 0 < length (memory p0))
    by (unfold p0; simpl_state; by rewrite length_replicate).
  set (p1 := set_codeptr 1
               (set_memory (<[0 := match bs with b :: _ => b | [] => 0%Z end]> (memory p0))
                  (set_cin (tail bs ++ match bs with [] => tail stop | _ => stop end) p0))).
  assert (H1 : step p0 = Next p1).
  { rewrite (turn_comma p0 0); [|done|done].
    unfold p1. change (cin p0) with (cin s0). by rewrite Hread, Hrest. }
  destruct bs as [|b bs'].
  - (* no byte to copy: the loop is skipped *)
    set (p2 := set_codeptr 5 p1).
    assert (H2 : step p1 = Next p2).
    { rewrite (step_dispatch p1 "[" eq_refl), exec_open.
      change (memptr p1) with 0.
      replace (memory p1 !! 0) with (Some 0%Z)
        by (symmetry; unfold p1; simpl_state; by apply list_lookup_insert_eq).
      reflexivity. }
    exists p2. split; [|unfold p2, p1, p0; simpl_state; by rewrite app_nil_r].
    change (2 + 3 * length []) with 2.
    by rewrite (run_turn 1 p0 p1), (run_turn 0 p1 p2); try done; simpl; lia.
  - pose proof Hbs as Hbs'. apply Forall_cons in Hbs' as [Hb Hbs'].
    set (p2 := set_codeptr 2 (set_loop_stack [1] p1)).
    assert (Hcell : memory p1 !! 0 = Some b)
      by (unfold p1; simpl_state; by apply list_lookup_insert_eq).
    assert (H2 : step p1 = Next p2).
    { rewrite (turn_open_nonzero p1 b); [done|done|done|lia]. }
    destruct (cat_loop bs' p2 b) as (s' & Hrun & Hout & Hin' & Hls & _); try done; [lia|].
    exists s'. split; [|split; [|done]].
    + replace (2 + 3 * length (b :: bs')) with (S (S (3 * S (length bs'))))
        by (simpl; lia).
      by rewrite (run_turn _ p0 p1), (run_turn _ p1 p2); try done; simpl; lia.
    + rewrite Hout. reflexivity.
Qed.
End Cat.

Lemma cat_copies_input_witness :
  exists s', execute 8 (loadCode ",[.,]" (new_interp [72%Z; 105%Z; 0%Z; 33%Z]))
             = Some (Completed s') /\
             cout s' = [72%Z; 105%Z] /\ cin s' = [33%Z] /\ loop_stack s' = [].
Proof.
  apply (cat_copies_input [0%Z; 33%Z] ltac:(right; by eexists)
           (new_interp [72%Z; 105%Z; 0%Z; 33%Z]) [72%Z; 105%Z]).
  - apply (new_interp_cells "").
  - repeat constructor; lia.
  - reflexivity.
Defined.

(** ** Shell: tokens *)

Section While.
Variable p : ascii -> bool.

Lemma take_drop_while cs : take_while p cs ++ drop_while p cs = cs.
Proof. induction cs as [|c cs IH]; [done|]. simpl. destruct (p c); simpl; by rewrite ?IH. Qed.

Lemma take_while_all cs : Forall (fun c => p c = true) (take_while p cs).
Proof.
  induction cs as [|c cs IH]; [constructor|]. simpl.
  destruct (p c) eqn:Hc; by constructor.
Qed.

Lemma drop_while_head cs c rest : drop_while p cs = c :: rest -> p c = false.
Proof.
  induction cs as [|x cs IH]; [done|]. simpl.
  destruct (p x) eqn:Hx; [done|]. by intros [= <- <-].
Qed.

Lemma drop_while_app_all l1 l2 :
  Forall (fun c => p c = true) l1 -> drop_while p (l1 ++ l2) = drop_while p l2.
Proof. induction 1 as [|c l1 Hc _ IH]; [done|]. simpl. by rewrite Hc. Qed.

Lemma take_while_app_all l1 l2 :
  Forall (fun c => p c = true) l1 -> take_while p (l1 ++ l2) = l1 ++ take_while p l2.
Proof. induction 1 as [|c l1 Hc _ IH]; [done|]. simpl. by rewrite Hc, IH. Qed.

Lemma take_while_stop cs ws :
  (cs = [] \/ exists c rest, cs = c :: rest /\ p c = false) ->
  Forall (fun c => p c = false) ws ->
  take_while p (cs ++ ws) = [] /\ drop_while p (cs ++ ws) = cs ++ ws.
Proof.
  intros [->|(c & rest & -> & Hc)] Hws; simpl; [|by rewrite Hc].
  destruct Hws as [|w ws Hw _]; simpl; [done | by rewrite Hw].
Qed.
End While.

Lemma not_space_neg c : negb (isspace c) = false <-> isspace c = true.
Proof. destruct (isspace c); simpl; split; congruence. Qed.

(** One extraction, read against the text: white space, then the token,
    then the rest, which is empty or begins with white space. *)
Lemma extract_some ss token rest :
  extract ss = Some (token, rest) ->
  exists ws, ss = ws ++ token ++ rest /\
    Forall (fun c => isspace c = true) ws /\
    token <> [] /\ Forall (fun c => isspace c = false) token /\
    (rest = [] \/ exists c r, rest = c :: r /\ isspace c = true).
Proof.
  unfold extract. destruct (drop_while isspace ss) as [|c r] eqn:Hd; [done|].
  pose proof (drop_while_head _ _ _ _ Hd) as Hc.
  pose proof (take_drop_while (fun x => negb (isspace x)) (c :: r)) as Hsplit.
  pose proof (take_while_all (fun x => negb (isspace x)) (c :: r)) as Hall.
  assert (Hne : take_while (fun x => negb (isspace x)) (c :: r) <> [])
    by (simpl; by rewrite Hc).
  destruct (take_while (fun x => negb (isspace x)) (c :: r)) as [|t0 token0] eqn:Ht;
    [exfalso; by apply Hne|].
  destruct (drop_while (fun x => negb (isspace x)) (c :: r)) as [|x r'] eqn:Hr;
    intros [= <- <-]; exists (take_while isspace ss);
    (split; [by rewrite Hsplit, <- Hd, take_drop_while|]);
    (split; [apply take_while_all|]); (split; [exact Hne|]);
    (split; [eapply Forall_impl; [exact Hall|]; intros y Hy; simpl in Hy;
             destruct (isspace y); [discriminate Hy | reflexivity]|]).
  - by left.
  - right. exists x, r'. split; [done|].
    apply drop_while_head in Hr. by apply not_space_neg.
Qed.

Lemma extract_none ss : extract ss = None <-> Forall (fun c => isspace c = true) ss.
Proof.
  unfold extract. split.
  - destruct (drop_while isspace ss) eqn:Hd; [|done]. intros _.
    rewrite <- (take_drop_while isspace ss), Hd, app_nil_r. apply take_while_all.
  - intros H. rewrite <- (app_nil_r ss), (drop_while_app_all _ _ _ H). done.
Qed.

Lemma extract_shorter ss token rest :
  extract ss = Some (token, rest) -> length rest < length ss.
Proof.
  intros H. destruct (extract_some _ _ _ H) as (ws & -> & _ & Hne & _).
  rewrite !length_app. destruct token; [done | simpl; lia].
Qed.

(** White space before the text does not change an extraction; white space
    after it goes to the rest. *)
Lemma extract_after_space ws ss :
  Forall (fun c => isspace c = true) ws -> extract (ws ++ ss) = extract ss.
Proof. intros H. unfold extract. by rewrite (drop_while_app_all _ _ _ H). Qed.

(** A token followed by nothing or by white space is what is extracted. *)
Lemma extract_token token rest :
  token <> [] -> Forall (fun c => isspace c = false) token ->
  (rest = [] \/ exists c r, rest = c :: r /\ isspace c = true) ->
  extract (token ++ rest) = Some (token, rest).
Proof.
  intros Hne Htok Hrest.
  assert (Hns : Forall (fun c => negb (isspace c) = true) token)
    by (eapply Forall_impl; [exact Htok|]; by intros x ->).
  destruct (take_while_stop (fun x => negb (isspace x)) rest []) as [Hk Hd].
  { destruct Hrest as [->|(c & r & -> & Hc)]; [by left|].
    right. exists c, r. split; [done|]. by rewrite Hc. }
  { constructor. }
  rewrite app_nil_r in Hk, Hd.
  pose proof (take_while_app_all _ _ rest Hns) as E1.
  pose proof (drop_while_app_all _ _ rest Hns) as E2.
  rewrite Hk, app_nil_r in E1. rewrite Hd in E2.
  destruct token as [|c token]; [done|].
  apply Forall_cons in Htok as [Hc _].
  unfold extract.
  assert (Hskip : drop_while isspace ((c :: token) ++ rest) = c :: (token ++ rest))
    by (simpl; by rewrite Hc).
  rewrite Hskip. f_equal. f_equal; [exact E1 | exact E2].
Qed.

Lemma extract_before_space ss ws token rest :
  Forall (fun c => isspace c = true) ws ->
  extract ss = Some (token, rest) -> extract (ss ++ ws) = Some (token, rest ++ ws).
Proof.
  intros Hws H. destruct (extract_some _ _ _ H) as (sp & -> & Hsp & Hne & Htok & Hrest).
  rewrite <- !app_assoc, (extract_after_space _ _ Hsp).
  apply extract_token; [done | done |].
  destruct Hrest as [->|(c & r & -> & Hc)].
  - destruct Hws as [|w ws Hw _]; [by left|]. right. by exists w, ws.
  - right. by exists c, (r ++ ws).
Qed.

Lemma tokenize_loop_fuel f1 : forall f2 ss,
  length ss < f1 -> length ss < f2 -> tokenize_loop f1 ss = tokenize_loop f2 ss.
Proof.
  induction f1 as [|f1 IH]; intros [|f2] ss H1 H2; try lia. simpl.
  destruct (extract ss) as [[token rest]|] eqn:He; [|done].
  pose proof (extract_shorter _ _ _ He). f_equal. apply IH; lia.
Qed.

Lemma tokenize_loop_before_space ws fuel : forall ss,
  Forall (fun c => isspace c = true) ws ->
  tokenize_loop fuel (ss ++ ws) = tokenize_loop fuel ss.
Proof.
  induction fuel as [|fuel IH]; intros ss Hws; [done|]. simpl.
  destruct (extract ss) as [[token rest]|] eqn:He.
  - rewrite (extract_before_space _ _ _ _ Hws He). f_equal. by apply IH.
  - apply extract_none in He.
    assert (Hall : extract (ss ++ ws) = None)
      by (apply extract_none, Forall_app; done).
    by rewrite Hall.
Qed.

Lemma tokenize_loop_after_space ws fuel ss :
  Forall (fun c => isspace c = true) ws ->
  tokenize_loop (S fuel) (ws ++ ss) = tokenize_loop (S fuel) ss.
Proof. intros H. cbn [tokenize_loop]. by rewrite (extract_after_space _ _ H). Qed.

(** White space around a line does not change its tokens. *)
Lemma tokenize_padded ws1 ws2 line :
  Forall (fun c => isspace c = true) ws1 -> Forall (fun c => isspace c = true) ws2 ->
  tokenize (ws1 ++ line ++ ws2) = tokenize line.
Proof.
  intros H1 H2. unfold tokenize.
  rewrite (tokenize_loop_fuel _ (S (length (ws1 ++ line ++ ws2))) line); [|lia|].
  - cbn [tokenize_loop]. rewrite (extract_after_space _ _ H1).
    change (match extract (line ++ ws2) with
            | Some (token, rest) =>
                token :: tokenize_loop (length (ws1 ++ line ++ ws2)) rest
            | None => []
            end) with (tokenize_loop (S (length (ws1 ++ line ++ ws2))) (line ++ ws2)).
    by apply tokenize_loop_before_space.
  - rewrite !length_app. lia.
Qed.

Lemma filter_white_space ws :
  Forall (fun c => isspace c = true) ws -> filter (fun c => isspace c = false) ws = [].
Proof.
  induction 1 as [|c ws Hc _ IH]; [done|].
  rewrite filter_cons. destruct (decide (isspace c = false)); [congruence|done].
Qed.

Lemma filter_no_white_space t :
  Forall (fun c => isspace c = false) t -> filter (fun c => isspace c = false) t = t.
Proof.
  induction 1 as [|c t Hc _ IH]; [done|].
  rewrite filter_cons. destruct (decide (isspace c = false)); [by f_equal | done].
Qed.

Lemma tokenize_loop_tokens fuel : forall ss,
  length ss < fuel ->
  Forall (fun t => t <> [] /\ Forall (fun c => isspace c = false) t)
         (tokenize_loop fuel ss) /\
  concat (tokenize_loop fuel ss) = filter (fun c => isspace c = false) ss.
Proof.
  induction fuel as [|fuel IH]; intros ss Hlen; [lia|]. simpl.
  destruct (extract ss) as [[token rest]|] eqn:He.
  - pose proof (extract_shorter _ _ _ He) as Hshort.
    destruct (extract_some _ _ _ He) as (ws & -> & Hws & Hne & Htok & _).
    destruct (IH rest ltac:(lia)) as [Hall Hcat]. split; [by constructor|].
    simpl. by rewrite Hcat, !filter_app, (filter_white_space _ Hws),
      (filter_no_white_space _ Htok).
  - apply extract_none in He. split; [constructor|]. simpl.
    by rewrite (filter_white_space _ He).
Qed.

(** X9.  Every token that [tokenize] returns is nonempty and free of white
    space, and the tokens put end to end are the line without its white
    space; there is no token exactly when the line is white space only. *)
Theorem tokenize_splits_at_white_space (line : list ascii) :
  Forall (fun t => t <> [] /\ Forall (fun c => isspace c = false) t) (tokenize line) /\
  concat (tokenize line) = filter (fun c => isspace c = false) line /\
  (tokenize line = [] <-> Forall (fun c => isspace c = true) line).
Proof.
  destruct (tokenize_loop_tokens (S (length line)) line ltac:(lia)) as [H1 H2].
  split; [exact H1|]. split; [exact H2|].
  unfold tokenize. simpl. rewrite <- extract_none.
  destruct (extract line) as [[? ?]|]; split; done.
Qed.

Lemma join_tokens_cons t ts :
  ts <> [] -> join_tokens (t :: ts) = t ++ " "%char :: join_tokens ts.
Proof. by destruct ts. Qed.

(** X10.  Splitting undoes joining: tokens that are nonempty and free of
    white space, joined with single spaces as the [code] command joins
    them, are the tokens of the joined text. *)
Theorem tokenize_join_tokens (tokens : list (list ascii)) :
  Forall (fun t => t <> [] /\ Forall (fun c => isspace c = false) t) tokens ->
  tokenize (join_tokens tokens) = tokens.
Proof.
  assert (Hone : forall t rest fuel,
            t <> [] -> Forall (fun c => isspace c = false) t ->
            (rest = [] \/ exists c r, rest = c :: r /\ isspace c = true) ->
            tokenize_loop (S fuel) (t ++ rest) = t :: tokenize_loop fuel rest).
  { intros t rest fuel Hne Ht Hrest. cbn [tokenize_loop].
    by rewrite (extract_token _ _ Hne Ht Hrest). }
  induction 1 as [|t ts [Hne Ht] Hts IH]; [done|].
  unfold tokenize in *. destruct ts as [|t' ts].
  - cbn [join_tokens]. rewrite <- (app_nil_r t) at 2.
    rewrite (Hone t [] _ Hne Ht ltac:(by left)). f_equal. by destruct (length t).
  - rewrite join_tokens_cons by done.
    rewrite (Hone t (" "%char :: join_tokens (t' :: ts)) _ Hne Ht
               ltac:(right; by eexists _, _)).
    f_equal.
    set (more := join_tokens (t' :: ts)) in *.
    assert (0 < length t) by (destruct t; [done | simpl; lia]).
    rewrite (tokenize_loop_fuel _ (S (S (length more))) (" "%char :: more))
      by (rewrite ?length_app; simpl; lia).
    change (" "%char :: more) with ([" "%char] ++ more).
    rewrite (tokenize_loop_after_space [" "%char]) by (by repeat constructor).
    rewrite (tokenize_loop_fuel _ (S (length more)) more) by lia.
    exact IH.
Qed.

Lemma tokenize_join_tokens_witness :
  tokenize (join_tokens [text "code"; text "++"; text "[-]"])
  = [text "code"; text "++"; text "[-]"].
Proof.
  apply tokenize_join_tokens. repeat constructor; done.
Defined.

(** ** Shell: from a line to a command *)

Lemma is_blank_space c : is_blank c = true -> isspace c = true.
Proof.
  unfold is_blank. intros H. apply orb_prop in H as [H|H];
    apply Ascii.eqb_eq in H; by subst.
Qed.

(** [trim] takes blanks off both ends and nothing else. *)
Lemma trim_padded line :
  exists b1 b2, Forall (fun c => is_blank c = true) b1 /\
                Forall (fun c => is_blank c = true) b2 /\
                line = b1 ++ trim line ++ b2.
Proof.
  exists (take_while is_blank line),
         (rev (take_while is_blank (rev (drop_while is_blank line)))).
  split; [apply take_while_all|]. split; [apply Forall_rev, take_while_all|].
  unfold trim. rewrite <- rev_app_distr, take_drop_while, rev_involutive.
  by rewrite take_drop_while.
Qed.

Lemma tokenize_trim line : tokenize (trim line) = tokenize line.
Proof.
  destruct (trim_padded line) as (b1 & b2 & H1 & H2 & Hline).
  rewrite Hline at 2. symmetry. apply tokenize_padded;
    (eapply Forall_impl; [eassumption|]; apply is_blank_space).
Qed.

Lemma text_eqb_eq a : forall b, text_eqb a b = true <-> a = b.
Proof.
  induction a as [|x a IH]; intros [|y b]; simpl; try (split; congruence).
  rewrite andb_true_iff, Ascii.eqb_eq, IH. split; [intros [-> ->]; done | by intros [= -> ->]].
Qed.

Lemma read_command_dispatch line tokens :
  read_command line = Dispatch tokens -> tokens = tokenize line /\ tokens <> [].
Proof.
  unfold read_command. rewrite <- (tokenize_trim line).
  destruct (trim line) as [|c l]; [done|].
  destruct (_ || _); [done|].
  destruct (tokenize (c :: l)) as [|t ts]; [done|]. by intros [= <-].
Qed.

(** X11.  The head of the command loop, read against the tokens of the
    line as it was typed: the line is passed over exactly when it has no
    token; the tokens that reach the command dispatch are the tokens of the
    whole line, blanks at either end making no difference; and the loop is
    left only on a line whose single token is [exit], [quit] or [q], with
    nothing but spaces and tabs around it. *)
Theorem read_command_by_tokens (line : list ascii) :
  (read_command line = Continue <-> tokenize line = []) /\
  (forall tokens, read_command line = Dispatch tokens ->
     tokens = tokenize line /\ tokens <> []) /\
  (read_command line = Break ->
     tokenize line = [trim line] /\
     (trim line = text "exit" \/ trim line = text "quit" \/ trim line = text "q")).
Proof.
  unfold read_command. rewrite <- (tokenize_trim line).
  destruct (trim line) as [|c l] eqn:Ht.
  { split; [done|]. split; done. }
  rewrite <- Ht. clear Ht c l.
  destruct (text_eqb (trim line) (text "exit")) eqn:E1;
    [apply text_eqb_eq in E1; rewrite E1; split; [done|]; split; [done|]; intros _; auto|].
  destruct (text_eqb (trim line) (text "quit")) eqn:E2;
    [apply text_eqb_eq in E2; rewrite E2; split; [done|]; split; [done|]; intros _; auto|].
  destruct (text_eqb (trim line) (text "q")) eqn:E3;
    [apply text_eqb_eq in E3; rewrite E3; split; [done|]; split; [done|]; intros _; auto|].
  simpl. destruct (tokenize (trim line)) as [|t ts]; [done|].
  split; [done|]. split; [|done]. by intros tokens [= <-].
Qed.

Lemma read_command_by_tokens_witness :
  tokenize (text "  code  +[-]  ") = [text "code"; text "+[-]"] /\
  tokenize (text "	q ") = [text "q"].
Proof.
  split.
  - destruct (read_command_by_tokens (text "  code  +[-]  ")) as (_ & H & _).
    destruct (H [text "code"; text "+[-]"] eq_refl) as [-> _]. reflexivity.
  - destruct (read_command_by_tokens (text "	q ")) as (_ & _ & H).
    destruct (H eq_refl) as [-> _]. reflexivity.
Defined.

(** ** Shell: the program of the [code] command *)

Lemma instruction_not_space c : is_instruction c = true -> isspace c = false.
Proof.
  intros H. apply is_instruction_cases in H.
  destruct H as [->|[->|[->|[->|[->|[->|[->| ->]]]]]]]; reflexivity.
Qed.

Lemma filter_code_no_white_space l :
  filter_code (filter (fun c => isspace c = false) l) = filter_code l.
Proof.
  induction l as [|c l IH]; [done|]. rewrite filter_cons.
  destruct (decide (isspace c = false)) as [Hc|Hc]; simpl; rewrite IH; [done|].
  destruct (is_instruction c) eqn:Hi; [|done].
  by apply instruction_not_space in Hi.
Qed.

Lemma filter_code_join tokens :
  filter_code (join_tokens tokens) = filter_code (concat tokens).
Proof.
  induction tokens as [|t [|t' ts] IH]; [done | by rewrite (app_nil_r t : concat [t] = t) |].
  rewrite join_tokens_cons by done.
  change (concat (t :: t' :: ts)) with (t ++ concat (t' :: ts)).
  rewrite !filter_code_app. f_equal. exact IH.
Qed.

(** X12.  What the [code] command loads: when the first token of the
    line is [code], the program installed from the text that the command
    puts together is made of the instruction characters of the whole line,
    as if the line itself had been loaded. *)
Theorem code_command_loads_the_line
    (line : list ascii) (tokens : list (list ascii)) (s : BrainfuckInterpreter) :
  read_command line = Dispatch tokens ->
  head tokens = Some (text "code") ->
  code (loadCode (string_of_list_ascii (code_argument tokens)) s)
  = code (loadCode (string_of_list_ascii line) s).
Proof.
  intros Hread Hcmd.
  destruct (read_command_dispatch line tokens Hread) as [-> _].
  simpl_state. rewrite !list_ascii_of_string_of_list_ascii.
  destruct (tokenize_loop_tokens (S (length line)) line ltac:(lia)) as [_ Hcat].
  fold (tokenize line) in Hcat.
  rewrite <- (filter_code_no_white_space line), <- Hcat.
  destruct (tokenize line) as [|t ts]; [done|]. injection Hcmd as ->.
  unfold code_argument. cbn [tail concat].
  by rewrite filter_code_join, filter_code_app.
Qed.

Lemma code_command_loads_the_line_witness :
  code (loadCode (string_of_list_ascii
                    (code_argument [text "code"; text "+"; text "[-]"])) (new_interp []))
  = code (loadCode "  code +  [-] " (new_interp [])).
Proof.
  apply (code_command_loads_the_line (text "  code +  [-] ")); reflexivity.
Defined.

(** ** dumpMemory *)

Lemma dump_loop_window s turns : forall i,
  i + turns <= length (memory s) ->
  dump_loop s turns i = Some (render_window s (window s i turns)).
Proof.
  induction turns as [|turns IH]; intros i Hi; [done|].
  destruct (lookup_lt_is_Some_2 (memory s) i ltac:(lia)) as [v Hv].
  cbn [dump_loop]. rewrite Hv, (IH (S i)) by lia.
  unfold window. rewrite (drop_S _ _ _ Hv). reflexivity.
Qed.

Lemma dump_end_bound start count s :
  (dump_end start count s <= N.of_nat (length (memory s)))%N.
Proof. unfold dump_end. lia. Qed.

(** X13.  [dumpMemory] never reads outside the tape, whatever [start] and
    [count] are.  With [start] at or past the end of the tape it prints
    the error line and nothing else.  Otherwise it prints the header and
    the cells from [start] up to [end], each with its value and the
    current one in brackets; when [start + count] does not overflow, these
    are [count] cells, or as many as there are from [start] to the end of
    the tape if that is fewer. *)
Theorem dumpMemory_lists_the_window (start count : N) (s : BrainfuckInterpreter) :
  let size := N.of_nat (length (memory s)) in
  let e := dump_end start count s in
  let cells := N.to_nat e - N.to_nat start in
  ((size <= start)%N /\
   dumpMemory start count s
   = Some (text "Error: Start position " ++ show_N start
           ++ text " exceeds memory size " ++ show_N size ++ newline)) \/
  ((start < size)%N /\
   dumpMemory start count s
   = Some (text "Memory [" ++ show_N start ++ text "-"
           ++ show_N ((e + SIZE_MODULUS - 1) mod SIZE_MODULUS) ++ text "]: "
           ++ render_window s (window s (N.to_nat start) cells) ++ newline) /\
   length (window s (N.to_nat start) cells) = cells /\
   N.to_nat start + cells <= length (memory s) /\
   ((start + count < SIZE_MODULUS)%N ->
    cells = N.to_nat (N.min count (size - start)))).
Proof.
  intros size e cells. unfold dumpMemory. fold size. fold e.
  destruct (N.leb_spec size start) as [Hout|Hin]; [by left|]. right.
  pose proof (dump_end_bound start count s) as He. fold e size in He.
  assert (Hfit : N.to_nat start + cells <= length (memory s)) by (unfold cells; lia).
  split; [done|]. fold cells. rewrite (dump_loop_window _ _ _ Hfit).
  split; [done|]. split; [|split; [done|]].
  - unfold window. rewrite length_zip_with, length_seq, length_take, length_drop. lia.
  - intros Hno. unfold cells, e, dump_end. rewrite N.mod_small by done. fold size. lia.
Qed.

(** A stretch of cells that the data pointer is not in is listed plainly. *)
Lemma dump_loop_plain s turns : forall i,
  i + turns <= length (memory s) ->
  memptr s < i \/ i + turns <= memptr s ->
  dump_loop s turns i = Some (concat (map plain_cell (take turns (drop i (memory s))))).
Proof.
  induction turns as [|turns IH]; intros i Hi Hout; [done|].
  destruct (lookup_lt_is_Some_2 (memory s) i ltac:(lia)) as [v Hv].
  cbn [dump_loop]. rewrite Hv, (IH (S i)) by lia.
  rewrite (drop_S _ _ _ Hv). cbn [take map concat]. unfold show_cell.
  destruct (Nat.eqb_spec i (memptr s)); [lia|done].
Qed.

(** A stretch of cells that the data pointer is in has that one cell
    marked. *)
Lemma dump_loop_marked s v turns : forall i,
  i + turns <= length (memory s) ->
  i <= memptr s < i + turns -> memory s !! memptr s = Some v ->
  dump_loop s turns i
  = Some (concat (map plain_cell (take (memptr s - i) (take turns (drop i (memory s)))))
          ++ marked_cell v
          ++ concat (map plain_cell
                       (drop (S (memptr s - i)) (take turns (drop i (memory s)))))).
Proof.
  induction turns as [|turns IH]; intros i Hi Hin Hv; [lia|].
  destruct (lookup_lt_is_Some_2 (memory s) i ltac:(lia)) as [v0 Hv0].
  cbn [dump_loop]. rewrite Hv0, (drop_S _ _ _ Hv0). unfold show_cell.
  destruct (Nat.eqb_spec i (memptr s)) as [Heq|Hne].
  - rewrite dump_loop_plain by lia. rewrite <- Heq, Nat.sub_diag.
    rewrite <- Heq, Hv0 in Hv. injection Hv as ->. reflexivity.
  - rewrite (IH (S i)) by (done || lia).
    replace (memptr s - i) with (S (memptr s - S i)) by lia.
    cbn [take drop map concat]. fold (plain_cell v0). by rewrite <- !app_assoc.
Qed.

(** X14.  Which cell of the listing is in brackets.  With [start] on the
    tape, the listing is the header, the cells of the window in order and a
    newline.  When the data pointer is outside the window (before [start],
    or at or after [end]) every cell is printed plainly, as its value and a
    space, and nothing is in brackets; this is so in particular when the
    data pointer is past the tape, where a run stopped by the memory limit
    leaves it.  When the data pointer is inside the window, the cell under
    it is printed in brackets and every other cell plainly. *)
Theorem dumpMemory_marks_only_inside (start count : N) (s : BrainfuckInterpreter) :
  let first := N.to_nat start in
  let cells := N.to_nat (dump_end start count s) - first in
  let vals := take cells (drop first (memory s)) in
  (start < N.of_nat (length (memory s)))%N ->
  (memptr s < first \/ first + cells <= memptr s ->
   dumpMemory start count s
   = Some (dump_header start count s ++ concat (map plain_cell vals) ++ newline)) /\
  (length (memory s) <= memptr s ->
   dumpMemory start count s
   = Some (dump_header start count s ++ concat (map plain_cell vals) ++ newline)) /\
  (first <= memptr s < first + cells ->
   exists v, memory s !! memptr s = Some v /\
   dumpMemory start count s
   = Some (dump_header start count s
           ++ concat (map plain_cell (take (memptr s - first) vals))
           ++ marked_cell v
           ++ concat (map plain_cell (drop (S (memptr s - first)) vals))
           ++ newline)).
Proof.
  intros first cells vals Hstart.
  pose proof (dump_end_bound start count s) as He.
  assert (Hfit : first + cells <= length (memory s)) by (unfold first, cells; lia).
  assert (Hplain : memptr s < first \/ first + cells <= memptr s ->
    dumpMemory start count s
    = Some (dump_header start count s ++ concat (map plain_cell vals) ++ newline)).
  { intros Hout. unfold dumpMemory, dump_header.
    destruct (N.leb_spec (N.of_nat (length (memory s))) start) as [|_]; [lia|].
    cbv zeta. fold first. fold cells. rewrite (dump_loop_plain _ _ _ Hfit Hout).
    by rewrite <- !app_assoc. }
  split; [exact Hplain|]. split; [intros Hpast; apply Hplain; lia|].
  intros Hin. destruct (lookup_lt_is_Some_2 (memory s) (memptr s) ltac:(lia)) as [v Hv].
  exists v. split; [done|]. unfold dumpMemory, dump_header.
  destruct (N.leb_spec (N.of_nat (length (memory s))) start) as [|_]; [lia|].
  cbv zeta. fold first. fold cells. rewrite (dump_loop_marked _ _ _ _ Hfit Hin Hv).
  by rewrite <- !app_assoc.
Qed.

Lemma dumpMemory_marks_only_inside_witness :
  dumpMemory 0 16 (set_memptr INITIAL_CELLS (new_interp []))
  = Some (text "Memory [0-15]: 0 0 0 0 0 0 0 0 0 0 0 0 0 0 0 0 " ++ newline).
Proof.
  refine (proj1 (proj2 (dumpMemory_marks_only_inside 0 16
                          (set_memptr INITIAL_CELLS (new_interp [])) _)) _).
  - cbn [set_memptr new_interp memory]. rewrite length_replicate.
    unfold INITIAL_CELLS. lia.
  - cbn [set_memptr new_interp memory memptr]. rewrite length_replicate. lia.
Defined.

(** X15.  An empty window: when [start] is on the tape and
    [start + count], reduced modulo [2^64], is not above [start], no cell
    is listed and the header gives the upper bound as that sum minus one,
    again modulo [2^64]; with [start = 0] and [count = 0] the bound printed
    is 18446744073709551615. *)
Theorem dumpMemory_empty_window (start count : N) (s : BrainfuckInterpreter) :
  (start < N.of_nat (length (memory s)))%N ->
  ((start + count) mod SIZE_MODULUS <= start)%N ->
  dumpMemory start count s
  = Some (text "Memory [" ++ show_N start ++ text "-"
          ++ show_N (((start + count) mod SIZE_MODULUS + SIZE_MODULUS - 1) mod SIZE_MODULUS)
          ++ text "]: " ++ newline) /\
  (start = 0%N -> count = 0%N ->
   dumpMemory start count s = Some (text "Memory [0-18446744073709551615]: " ++ newline)).
Proof.
  intros Hin Hwrap.
  assert (He : dump_end start count s = ((start + count) mod SIZE_MODULUS)%N)
    by (unfold dump_end; lia).
  assert (Hdump : dumpMemory start count s
          = Some (text "Memory [" ++ show_N start ++ text "-"
                  ++ show_N (((start + count) mod SIZE_MODULUS + SIZE_MODULUS - 1)
                             mod SIZE_MODULUS)
                  ++ text "]: " ++ newline)).
  { unfold dumpMemory. destruct (N.leb_spec (N.of_nat (length (memory s))) start); [lia|].
    rewrite He. replace (_ - N.to_nat start) with 0 by lia. reflexivity. }
  split; [exact Hdump|]. intros -> ->. rewrite Hdump. reflexivity.
Qed.

Lemma dumpMemory_empty_window_witness :
  dumpMemory 0 0 (new_interp []) = Some (text "Memory [0-18446744073709551615]: " ++ newline).
Proof.
  destruct (dumpMemory_empty_window 0 0 (new_interp [])) as [_ H].
  - cbn [new_interp memory]. rewrite length_replicate. unfold INITIAL_CELLS. lia.
  - vm_compute. discriminate.
  - by apply H.
Defined.

(** ** One run after another *)

(** X16.  What an earlier run left behind has no influence on the next
    run of a program that passes the pre-pass: two engines with the same
    program, the same tape length, the same streams and the same debug
    flag give the same result, whatever their cells, pointers and loop
    stacks are. *)
Theorem execute_ignores_leftovers (s1 s2 : BrainfuckInterpreter) (fuel : nat) :
  code s1 = code s2 -> length (memory s1) = length (memory s2) ->
  cin s1 = cin s2 -> cout s1 = cout s2 -> debug_mode s1 = debug_mode s2 ->
  validateBrackets s1 = true ->
  execute fuel s1 = execute fuel s2.
Proof.
  intros Hcode Hlen Hin Hout Hdbg Hv.
  assert (Hv2 : validateBrackets s2 = true) by (unfold validateBrackets in *; congruence).
  rewrite (execute_valid _ _ Hv), (execute_valid _ _ Hv2). f_equal.
  unfold prepare. destruct s1, s2. simpl_state. subst. by rewrite Hlen.
Qed.

Lemma execute_ignores_leftovers_witness :
  execute 2 (set_loop_stack [1] (dirty_engine "+.")) = execute 2 (loadCode "+." (new_interp [])).
Proof.
  apply execute_ignores_leftovers;
    [reflexivity | | reflexivity | reflexivity | reflexivity | reflexivity].
  cbn [dirty_engine set_loop_stack set_memptr set_memory loadCode set_code new_interp memory].
  by rewrite !length_replicate.
Defined.

(** ** The lengths of the tape *)

Lemma step_length s s' :
  step s = Next s' ->
  length (memory s') = length (memory s) \/
  (length (memory s) < MEMORY_LIMIT /\
   length (memory s') = Nat.min (length (memory s) * 2) MEMORY_LIMIT).
Proof.
  unfold step. destruct (code s !! codeptr s) as [c|] eqn:Hc; [|done].
  destruct (instruction_cases c)
    as [->|[->|[->|[->|[->|[->|[->|[->|Hother]]]]]]]].
  - rewrite exec_right.
    destruct (Nat.leb_spec (length (memory s)) (S (memptr s))) as [Hend|Hin];
      [destruct (Nat.leb_spec MEMORY_LIMIT (length (memory s))) as [Hfull|Hroom]|];
      intros [= <-]; simpl_state; rewrite ?length_resize; auto.
  - rewrite exec_left. destruct (0 <? memptr s); intros [= <-]; by left.
  - rewrite exec_plus. destruct (memory s !! memptr s); [|done].
    intros [= <-]. simpl_state. rewrite length_insert. by left.
  - rewrite exec_minus. destruct (memory s !! memptr s); [|done].
    intros [= <-]. simpl_state. rewrite length_insert. by left.
  - rewrite exec_dot. destruct (memory s !! memptr s); [|done]. intros [= <-]. by left.
  - rewrite exec_comma. destruct (cin_get (cin s)) as [[? ?] ?].
    destruct (memory s !! memptr s); [|done].
    intros [= <-]. simpl_state. rewrite length_insert. by left.
  - rewrite exec_open. destruct (memory s !! memptr s) as [v|]; [|done].
    destruct (v =? 0)%Z; [|intros [= <-]; by left].
    destruct (scan_loop _ _ _) as [pos bal]. destruct (0 <? bal)%Z; [done|].
    intros [= <-]. by left.
  - rewrite exec_close. destruct (loop_stack s); [done|].
    destruct (memory s !! memptr s) as [v|]; [|done].
    destruct (v =? 0)%Z; intros [= <-]; by left.
  - rewrite (exec_other _ _ Hother). intros [= <-]. by left.
Qed.

Lemma reaches_length s s' :
  length (memory s) <= MEMORY_LIMIT -> reaches s s' ->
  exists k, length (memory s') = Nat.min (length (memory s) * 2 ^ k) MEMORY_LIMIT.
Proof.
  intros Hcap. induction 1 as [|s1 s2 Hr [k IH] Hlt Hs].
  - exists 0. simpl. lia.
  - destruct (step_length _ _ Hs) as [->|[Hroom ->]]; [by exists k|].
    exists (S k). rewrite IH, Nat.pow_succ_r'. lia.
Qed.

(** X17.  The tape only ever has the lengths of the doubling sequence: on
    an engine whose tape is within the limit, the tape that [execute] hands
    back has the length it started with, doubled some number of times and
    cut at 1,000,000. *)
Theorem tape_length_doubles
    (s0 : BrainfuckInterpreter) (fuel : nat) (r : run_result) (s : BrainfuckInterpreter) :
  length (memory s0) <= MEMORY_LIMIT ->
  execute fuel s0 = Some r -> result_state r = Some s ->
  exists k, length (memory s) = Nat.min (length (memory s0) * 2 ^ k) MEMORY_LIMIT.
Proof.
  intros Hcap Hrun Hres.
  destruct (execute_result _ _ _ _ Hrun Hres) as [[Hv ->]|(Hv & s1 & Hr & Hs)].
  - exists 0. simpl. lia.
  - assert (Hlen : length (memory (prepare s0)) = length (memory s0))
      by (simpl_state; by rewrite length_replicate).
    destruct (reaches_length _ _ ltac:(by rewrite Hlen) Hr) as [k Hk].
    rewrite Hlen in Hk. exists k.
    destruct Hs as [->|[why Hs]]; [done|].
    by destruct (step_abort_frame _ _ _ Hs) as (_ & -> & _).
Qed.

Lemma tape_length_doubles_witness :
  exists k, length (memory (after 10 (prepare (loadCode "+++[-]" (new_interp [])))))
            = Nat.min (INITIAL_CELLS * 2 ^ k) MEMORY_LIMIT.
Proof.
  assert (Hrun := execute_after 10 (loadCode "+++[-]" (new_interp [])) eq_refl).
  specialize (Hrun ltac:(vm_compute; reflexivity) ltac:(vm_compute; reflexivity)).
  destruct (tape_length_doubles _ _ _ _ (proj2 (new_interp_cells "+++[-]" [])) Hrun eq_refl)
    as [k Hk].
  exists k. rewrite Hk. cbn [loadCode set_code new_interp memory].
  by rewrite length_replicate.
Defined.

(** ** Putting programs together *)

(** X18.  The pre-pass of the source, with its [int] counter, accepts two
    accepted programs put end to end.  It accepts an accepted program put
    between a [[] and a []] exactly when the brackets of that program are
    nested less than [INT_MAX] deep, so that one more level is in the range
    of the counter. *)
Theorem validateBrackets_composes (p q : list ascii) (s : BrainfuckInterpreter) :
  validateBrackets_int (set_code p s) = Some true ->
  validateBrackets_int (set_code q s) = Some true ->
  validateBrackets_int (set_code (p ++ q) s) = Some true /\
  (validateBrackets_int (set_code ("["%char :: p ++ ["]"%char]) s) = Some true <->
   forall k, (balance (take k p) < INT_MAX)%Z).
Proof.
  unfold validateBrackets_int. simpl_state.
  rewrite !validate_int_spec by (unfold INT_MAX; lia). intros [Hp Hp0] [Hq Hq0].
  assert (Hclose : forall k, (-1 <= balance (take k ["]"%char]) <= 0)%Z)
    by (intros [|k]; cbn [take balance];
        [lia | rewrite take_nil; change (weight "]") with (-1)%Z; cbn [balance]; lia]).
  split; [split|split].
  - intros k. rewrite take_app, balance_app.
    specialize (Hp k). specialize (Hq (k - length p)).
    destruct (decide (k <= length p)) as [Hk|Hk].
    + replace (k - length p) with 0 by lia. rewrite take_0. cbn [balance]. lia.
    + rewrite take_ge in * by lia. lia.
  - rewrite balance_app. lia.
  - intros [Hwrap _] k. destruct (decide (k <= length p)) as [Hk|Hk].
    + specialize (Hwrap (S k)). cbn [take balance] in Hwrap.
      rewrite take_app, balance_app in Hwrap.
      replace (k - length p) with 0 in Hwrap by lia.
      rewrite take_0 in Hwrap. cbn [balance] in Hwrap.
      change (weight "[") with 1%Z in Hwrap. lia.
    + rewrite take_ge by lia. unfold INT_MAX. lia.
  - intros Hdepth. split.
    + intros [|k]; cbn [take balance]; [unfold INT_MAX; lia|].
      rewrite take_app, balance_app.
      specialize (Hp k). specialize (Hdepth k). specialize (Hclose (k - length p)).
      change (weight "[") with 1%Z.
      destruct (decide (k <= length p)) as [Hk|Hk].
      * replace (k - length p) with 0 by lia. rewrite take_0. cbn [balance]. lia.
      * rewrite take_ge in * by lia. lia.
    + cbn [balance]. rewrite balance_app. cbn [balance]. change (weight "[") with 1%Z.
      change (weight "]") with (-1)%Z. lia.
Qed.

Lemma validateBrackets_composes_witness :
  validateBrackets_int (set_code (text "[-]" ++ text "[>+<-]") (new_interp [])) = Some true /\
  (validateBrackets_int (set_code ("["%char :: text "[-]" ++ ["]"%char]) (new_interp []))
   = Some true <->
   forall k, (balance (take k (text "[-]")) < INT_MAX)%Z).
Proof.
  apply validateBrackets_composes; reflexivity.
Defined.
